(** * Key-Paper Helper: the fetch / normalise / co-authorship pipeline

  A shallow embedding of [slr_screening_app.py]: [search_openalex],
  [reconstruct_abstract], [process_results] and
  [calculate_author_centrality], with the properties of its
  specification stated and proved over the embedding.

  Conventions of the embedding.
  - A Python [int] is a [Z]; a Python [str] is a [string] (a sequence of
    8-bit characters; [lower] folds the letters A-Z and keeps every other
    character).
  - A JSON object read with [.get] is a record whose fields have type
    [field T]: the key is missing, present with [null], or present with a
    value of the type the OpenAlex schema gives it.
  - A value that may be Python's [None] is an [option]; [None] is [None].
  - A Python [dict] whose iteration order matters is an association list
    in insertion order.
  - Code that can raise returns a [result]; the exception is named.
  - Centrality scores are exact rationals where Python has floats. *)

From Stdlib Require Import ZArith String Ascii List Bool Lia.
From Stdlib Require Import Permutation Sorted QArith Numbers.DecimalString.
Import ListNotations.

Local Open Scope Z_scope.
Local Open Scope list_scope.

(** ** Python values at the JSON boundary *)

Module Py.

(** A key of a JSON object: absent, [null], or a value. *)
Inductive field (A : Type) : Type :=
| Missing : field A
| Null : field A
| Val : A -> field A.
Arguments Missing {A}.
Arguments Null {A}.
Arguments Val {A} _.

(** [d.get(k)]: [None] when the key is missing. *)
Definition get {A} (f : field A) : option A :=
  match f with
  | Val v => Some v
  | Missing | Null => None
  end.

(** [d.get(k, default)]: the default replaces a missing key only. *)
Definition get_or {A} (f : field A) (default : A) : option A :=
  match f with
  | Missing => Some default
  | Null => None
  | Val v => Some v
  end.

(** Exceptions raised by the modelled code. *)
Inductive exn : Type :=
| TypeError
| AttributeError.

Inductive result (A : Type) : Type :=
| Ok : A -> result A
| Raise : exn -> result A.
Arguments Ok {A} _.
Arguments Raise {A} _.

Definition bind {A B} (m : result A) (k : A -> result B) : result B :=
  match m with
  | Ok a => k a
  | Raise e => Raise e
  end.

(** [for x in l: ...] over a body that can raise, collecting results. *)
Fixpoint mapM {A B} (f : A -> result B) (l : list A) : result (list B) :=
  match l with
  | [] => Ok []
  | x :: t => bind (f x) (fun y => bind (mapM f t) (fun ys => Ok (y :: ys)))
  end.

(** [l[:n]] for a list and an integer bound (a negative bound counts
    from the end). *)
Definition slice_to {A} (l : list A) (n : Z) : list A :=
  if 0 <=? n then firstn (Z.to_nat n) l
  else firstn (length l - Z.to_nat (- n)) l.

End Py.

Import Py.

Notation "x <- m ;; k" := (Py.bind m (fun x => k))
(at level 61, m at next level, right associativity).

(** ** Strings: [str.lower], [in], [join], [split] *)

Module Str.

Local Open Scope string_scope.

Definition lower_ascii (c : ascii) : ascii :=
  let n := N_of_ascii c in
  if ((65 <=? n) && (n <=? 90))%N then ascii_of_N (n + 32) else c.

(** [s.lower()] *)
Fixpoint lower (s : string) : string :=
  match s with
  | EmptyString => EmptyString
  | String c s' => String (lower_ascii c) (lower s')
  end.

(** [needle in hay]: substring test. *)
Fixpoint contains (needle hay : string) : bool :=
  prefix needle hay ||
  match hay with
  | EmptyString => false
  | String _ hay' => contains needle hay'
  end.

(** [sep.join(l)] *)
Definition join (sep : string) (l : list string) : string :=
  String.concat sep l.

(** Splitting at every occurrence of a character: the piece before the
    first occurrence, and the pieces after it. *)
Fixpoint split_at (c : ascii) (s : string) : string * list string :=
  match s with
  | EmptyString => (EmptyString, [])
  | String a s' =>
      let (w, ws) := split_at c s' in
      if Ascii.eqb a c then (EmptyString, w :: ws) else (String a w, ws)
  end.

(** [s.split(" ")]: one piece more than there are spaces. *)
Definition split_spaces (s : string) : list string :=
  let (w, ws) := split_at " "%char s in w :: ws.

(** The string has no space in it. *)
Fixpoint spaceless (s : string) : bool :=
  match s with
  | EmptyString => true
  | String a s' => negb (Ascii.eqb a " "%char) && spaceless s'
  end.

(** [str(n)] for an integer. *)
Definition of_Z (n : Z) : string := NilZero.string_of_int (Z.to_int n).

End Str.


(** ** Stable sorting: [list.sort(key=...)] and [sorted(..., reverse=True)] *)

Module StableSort.

Section Sort.
Context {A K : Type}.
(** [before k1 k2]: an element of key [k1] may stand in front of one of
    key [k2]. *)
Variable before : K -> K -> bool.
Variable key : A -> K.

(** [x] goes in front of the first element it may stand in front of, so
    elements of equal key keep the order they came in. *)
Fixpoint insert (x : A) (l : list A) : list A :=
  match l with
  | [] => [x]
  | y :: t => if before (key x) (key y) then x :: y :: t
              else y :: insert x t
  end.

Definition sort (l : list A) : list A := fold_right insert [] l.

Definition ordered (x y : A) : Prop := before (key x) (key y) = true.

End Sort.

End StableSort.

(** ** Abstract reconstructor *)

(** The API's [abstract_inverted_index]: word -> positions, in the order
    the object lists its keys. *)
Definition InvertedIndex : Type := list (string * list Z).

(** The [(pos, word)] pairs in the order the two nested loops append them. *)
Definition word_positions (inverted_index : InvertedIndex) : list (Z * string) :=
  flat_map (fun '(word, positions) => map (fun pos => (pos, word)) positions)
           inverted_index.

(** [word_positions.sort(key=lambda x: x[0])] *)
Definition sort_by_position (l : list (Z * string)) : list (Z * string) :=
  StableSort.sort Z.leb fst l.

(** [reconstruct_abstract]; the argument is [None] for Python's [None]. *)
Definition reconstruct_abstract (inverted_index : option InvertedIndex) : string :=
  match inverted_index with
  | None | Some [] => EmptyString
  | Some index =>
      Str.join " " (map snd (sort_by_position (word_positions index)))
  end.

(** ** Record normalizer *)

Module RawWork.

Record Author : Type := { display_name : field string }.

Record Authorship : Type := { author : field Author }.

Record Source : Type := { source_display_name : field string }.

Record Location : Type := { source : field Source }.

(** One work of the API's [results], with the keys [process_results] reads. *)
Record t : Type := {
  id : field string;
  doi : field string;
  title : field string;
  publication_year : field Z;
  cited_by_count : field Z;
  type : field string;
  authorships : field (list Authorship);
  primary_location : field Location;
  abstract_inverted_index : field InvertedIndex
}.

(** The empty object [{}]. *)
Definition no_author : Author := {| display_name := Missing |}.
Definition no_source : Source := {| source_display_name := Missing |}.
Definition no_location : Location := {| source := Missing |}.

End RawWork.

Inductive PaperType : Type := Review | Framework | Eval | Research.

Module Row.

(** One row of the table [process_results] builds. *)
Record t : Type := {
  id : option string;
  title : option string;
  year : option Z;
  cited_by_count : option Z;
  type : PaperType;
  authors : string;
  author_list : list string;
  journal : option string;
  doi : option string;
  abstract : string
}.

End Row.

(** The [if]/[elif] chain over [title_lower]. *)
Definition paper_type_of (title_lower : string) : PaperType :=
  if Str.contains "review" title_lower || Str.contains "overview" title_lower
     || Str.contains "state-of-the-art" title_lower
  then Review
  else if Str.contains "framework" title_lower || Str.contains "model" title_lower
          || Str.contains "theory" title_lower
  then Framework
  else if Str.contains "assess" title_lower || Str.contains "evaluat" title_lower
          || Str.contains "measur" title_lower
          || Str.contains "effectiveness" title_lower
  then Eval
  else Research.

(** [(work.get("title", "") or "").lower()] *)
Definition title_lower_of (title : field string) : string :=
  match get_or title EmptyString with
  | Some s => Str.lower s
  | None => Str.lower EmptyString
  end.

(** The body of the loop over [work.get("authorships", [])[:10]] for one
    authorship: the name appended, if any. [None.get] raises. *)
Definition kept_name (authorship : RawWork.Authorship) : result (list string) :=
  match get_or (RawWork.author authorship) RawWork.no_author with
  | None => Raise AttributeError
  | Some author =>
      match get (RawWork.display_name author) with
      | Some name => if String.eqb name EmptyString then Ok [] else Ok [name]
      | None => Ok []
      end
  end.

(** The names collected from the first ten authorships. [None[:10]] raises. *)
Definition collect_authors (authorships : field (list RawWork.Authorship))
  : result (list string) :=
  match get_or authorships [] with
  | None => Raise TypeError
  | Some l => names <- mapM kept_name (slice_to l 10) ;; Ok (concat names)
  end.

(** [x or {}] for an object read with [.get(k, {})]. *)
Definition or_empty {A} (x : option A) (empty : A) : A :=
  match x with
  | Some v => v
  | None => empty
  end.

(** One iteration of the loop of [process_results]. *)
Definition process_work (work : RawWork.t) : result Row.t :=
  authors <- collect_authors (RawWork.authorships work) ;;
  let author_names := authors in
  let location :=
    or_empty (get_or (RawWork.primary_location work) RawWork.no_location)
             RawWork.no_location in
  let source :=
    or_empty (get_or (RawWork.source location) RawWork.no_source)
             RawWork.no_source in
  let title_lower := title_lower_of (RawWork.title work) in
  let paper_type := paper_type_of title_lower in
  Ok {| Row.id := get_or (RawWork.id work) EmptyString;
        Row.title := get_or (RawWork.title work) EmptyString;
        Row.year := get (RawWork.publication_year work);
        Row.cited_by_count := get_or (RawWork.cited_by_count work) 0;
        Row.type := paper_type;
        Row.authors := Str.join "; " (slice_to authors 5);
        Row.author_list := author_names;
        Row.journal := get_or (RawWork.source_display_name source) EmptyString;
        Row.doi := get_or (RawWork.doi work) EmptyString;
        Row.abstract :=
          reconstruct_abstract (get (RawWork.abstract_inverted_index work)) |}.

(** [process_results]: the table is the list of its rows. *)
Definition process_results (results : list RawWork.t) : result (list Row.t) :=
  mapM process_work results.

(** ** Paginated fetcher *)

Module OpenAlex.

(** The [meta] object of a response. *)
Record Meta : Type := { count : field Z; next_cursor : field string }.

(** The JSON object of a response. *)
Record Data : Type := { meta : field Meta; results : field (list RawWork.t) }.

Definition no_meta : Meta := {| count := Missing; next_cursor := Missing |}.

(** What the three calls of the [try] block come to: [requests.get]
    raises, [raise_for_status] raises, [response.json()] raises, or the
    decoded object. The HTTP client is a black box. *)
Inductive Outcome : Type :=
| RequestException
| HTTPError
| JSONDecodeError
| Json (data : Data).

(** The query parameters of one request; [search] is [None] once popped. *)
Record Params : Type := {
  search : option string;
  filter : string;
  per_page : Z;
  cursor : string;
  select : string
}.

(** The HTTP side: the outcome of a request, given how many requests were
    made before it. *)
Definition Transport : Type := nat -> Params -> Outcome.

End OpenAlex.

Import OpenAlex.

Definition SELECT : string :=
  "id,doi,title,publication_year,cited_by_count,type,authorships,primary_location,abstract_inverted_index".

(** [f"publication_year:{year_from}-{year_to}"] *)
Definition base_filter_of (year_from year_to : Z) : string :=
  ("publication_year:" ++ Str.of_Z year_from ++ "-" ++ Str.of_Z year_to)%string.

(** The [params] dict of one iteration, after the scope-flag branches. *)
Definition build_params (query base_filter cursor : string)
  (search_title search_abstract search_keyword : bool) : Params :=
  let params := {| search := Some query;
                   filter := base_filter;
                   per_page := 200;
                   cursor := cursor;
                   select := SELECT |} in
  if search_title && negb search_abstract && negb search_keyword then
    {| search := None;
       filter := (base_filter ++ ",title.search:" ++ query)%string;
       per_page := per_page params;
       cursor := OpenAlex.cursor params;
       select := select params |}
  else if search_abstract && negb search_title && negb search_keyword then
    {| search := None;
       filter := (base_filter ++ ",abstract.search:" ++ query)%string;
       per_page := per_page params;
       cursor := OpenAlex.cursor params;
       select := select params |}
  else params.

(** The [try] block: the decoded object with its [meta] and the new
    [total_count], or [None] when the [except] branch is taken
    ([None.get] on a null [meta] raises inside the block too). *)
Definition try_page (reply : Outcome) : option (Data * Meta * option Z) :=
  match reply with
  | Json data =>
      match get_or (meta data) no_meta with
      | Some m => Some (data, m, get_or (count m) 0)
      | None => None
      end
  | RequestException | HTTPError | JSONDecodeError => None
  end.

(** A request and what came back. *)
Definition Exchange : Type := (Params * Outcome)%type.

(** What [search_openalex] returns, with the exchanges it made. *)
Record Fetched : Type := {
  records : list RawWork.t;
  total_count : option Z;
  log : list Exchange
}.

Section Fetch.

Variable transport : Transport.
Variables (query : string) (year_from year_to : Z).
Variables (search_title search_abstract search_keyword : bool).
Variable max_results : Z.

(** [return all_results[:max_results], total_count] *)
Definition finish (all_results : list RawWork.t) (total_count : option Z)
  (log : list Exchange) : Fetched :=
  {| records := slice_to all_results max_results;
     total_count := total_count;
     log := log |}.

(** The [while] loop; one unit of fuel per request, [None] when it runs
    out. *)
Fixpoint fetch_loop (fuel : nat) (all_results : list RawWork.t)
  (cursor : string) (total_count : option Z) (log : list Exchange)
  : option Fetched :=
  if Z.of_nat (length all_results) <? max_results then
    match fuel with
    | O => None
    | S fuel' =>
        let params :=
          build_params query (base_filter_of year_from year_to) cursor
                       search_title search_abstract search_keyword in
        let reply := transport (length log) params in
        let log := log ++ [(params, reply)] in
        match try_page reply with
        | None => Some {| records := []; total_count := Some 0; log := log |}
        | Some (data, m, total_count) =>
            match get_or (results data) [] with
            | None | Some [] => Some (finish all_results total_count log)
            | Some results =>
                let all_results := all_results ++ results in
                match get (next_cursor m) with
                | None => Some (finish all_results total_count log)
                | Some cursor =>
                    if String.eqb cursor EmptyString
                    then Some (finish all_results total_count log)
                    else fetch_loop fuel' all_results cursor total_count log
                end
            end
        end
    end
  else Some (finish all_results total_count log).

(** [search_openalex]: every request but the last adds a record, so
    [max_results] requests are the most the loop can make. *)
Definition search_openalex : option Fetched :=
  fetch_loop (Z.to_nat max_results) [] "*" (Some 0) [].

End Fetch.

(** The records a reply adds to [all_results]. *)
Definition page_of (reply : Outcome) : list RawWork.t :=
  match try_page reply with
  | Some (data, _, _) => or_empty (get_or (results data) []) []
  | None => []
  end.

(** The cursor a reply hands on, if it has a non-empty one. *)
Definition cursor_of (reply : Outcome) : option string :=
  match try_page reply with
  | Some (_, m, _) =>
      match get (next_cursor m) with
      | Some c => if String.eqb c EmptyString then None else Some c
      | None => None
      end
  | None => None
  end.

(** The [total_count] after a reply: [meta.count], 0 by default, and 0
    when the [except] branch is taken. *)
Definition count_of (reply : Outcome) : option Z :=
  match try_page reply with
  | Some (_, _, total_count) => total_count
  | None => Some 0
  end.

(** The reply is one the [except] branch catches. *)
Definition failed (reply : Outcome) : bool :=
  match try_page reply with
  | Some _ => false
  | None => true
  end.

(** The records of all the pages of a list of exchanges. *)
Definition pages_of (log : list Exchange) : list RawWork.t :=
  concat (map (fun e => page_of (snd e)) log).

(** Some exchange of the list failed. *)
Definition any_failed (log : list Exchange) : bool :=
  existsb (fun e => failed (snd e)) log.

Section Pagination.

Variable transport : Transport.
Variables (query : string) (year_from year_to : Z).
Variables (search_title search_abstract search_keyword : bool).
Variable max_results : Z.

(** The request the loop makes with a given cursor. *)
Definition request_for (cursor : string) : Params :=
  build_params query (base_filter_of year_from year_to) cursor
               search_title search_abstract search_keyword.

(** The exchanges of the loop from a state on, as a step relation:
    [acc] records are held, [cursor] is the next cursor and [i] requests
    were made. Each rule names why the loop stops or goes on. *)
Inductive Pagination (acc : nat) (cursor : string) (i : nat)
  : list Exchange -> Prop :=
| stop_cap :
    ~ Z.of_nat acc < max_results ->
    Pagination acc cursor i []
| stop_failure reply :
    Z.of_nat acc < max_results ->
    reply = transport i (request_for cursor) ->
    failed reply = true ->
    Pagination acc cursor i [(request_for cursor, reply)]
| stop_empty_page reply :
    Z.of_nat acc < max_results ->
    reply = transport i (request_for cursor) ->
    failed reply = false ->
    page_of reply = [] ->
    Pagination acc cursor i [(request_for cursor, reply)]
| stop_no_cursor reply :
    Z.of_nat acc < max_results ->
    reply = transport i (request_for cursor) ->
    failed reply = false ->
    page_of reply <> [] ->
    cursor_of reply = None ->
    Pagination acc cursor i [(request_for cursor, reply)]
| next_page reply next rest :
    Z.of_nat acc < max_results ->
    reply = transport i (request_for cursor) ->
    failed reply = false ->
    page_of reply <> [] ->
    cursor_of reply = Some next ->
    Pagination (acc + length (page_of reply)) next (S i) rest ->
    Pagination acc cursor i ((request_for cursor, reply) :: rest).

End Pagination.

(** ** Co-authorship graph: the [networkx.Graph] operations used *)

Module ODict.

(** A [dict] with string keys, in insertion order. *)
Section Dict.
Context {V : Type}.

Fixpoint get (k : string) (d : list (string * V)) : option V :=
  match d with
  | [] => None
  | (k', v) :: t => if String.eqb k k' then Some v else get k t
  end.

Definition mem (k : string) (d : list (string * V)) : bool :=
  match get k d with
  | Some _ => true
  | None => false
  end.

(** [d[k] = v]: in place when the key is there, at the end otherwise. *)
Fixpoint set (k : string) (v : V) (d : list (string * V)) : list (string * V) :=
  match d with
  | [] => [(k, v)]
  | (k', v') :: t =>
      if String.eqb k k' then (k, v) :: t else (k', v') :: set k v t
  end.

(** [del d[k]] *)
Fixpoint del (k : string) (d : list (string * V)) : list (string * V) :=
  match d with
  | [] => []
  | (k', v') :: t => if String.eqb k k' then t else (k', v') :: del k t
  end.

Definition keys (d : list (string * V)) : list string := map fst d.

End Dict.

End ODict.

Module Graph.

(** [G._adj]: node -> neighbour -> the edge's [weight] attribute. The
    two entries of an undirected edge share one attribute dict in
    networkx; here both are written on every update. *)
Definition t : Type := list (string * list (string * Z)).

Definition empty : t := [].

Definition nodes (G : t) : list string := ODict.keys G.

Definition has_node (G : t) (n : string) : bool := ODict.mem n G.

Definition adj (G : t) (u : string) : list (string * Z) :=
  match ODict.get u G with
  | Some nbrs => nbrs
  | None => []
  end.

(** [G[u][v]['weight']] when the edge is there. *)
Definition weight (G : t) (u v : string) : option Z := ODict.get v (adj G u).

Definition has_edge (G : t) (u v : string) : bool := ODict.mem v (adj G u).

Definition add_node (G : t) (n : string) : t :=
  if has_node G n then G else ODict.set n [] G.

(** [G._adj[u][v] = w] *)
Definition set_adj (G : t) (u v : string) (w : Z) : t :=
  ODict.set u (ODict.set v w (adj G u)) G.

(** [G.add_edge(u, v, weight=w)] *)
Definition add_edge (G : t) (u v : string) (w : Z) : t :=
  let G := add_node (add_node G u) v in
  set_adj (set_adj G u v w) v u w.

(** The degree networkx reports: a self-loop counts twice. *)
Definition degree (G : t) (n : string) : Z :=
  Z.of_nat (length (adj G n)) + (if ODict.mem n (adj G n) then 1 else 0).

(** [nx.isolates(G)] *)
Definition isolates (G : t) : list string :=
  List.filter (fun n => degree G n =? 0) (nodes G).

(** [del G._adj[u][n]] *)
Definition del_adj (G : t) (u n : string) : t :=
  match ODict.get u G with
  | Some nbrs => ODict.set u (ODict.del n nbrs) G
  | None => G
  end.

(** One node of [G.remove_nodes_from]: a node that is not there is
    skipped. *)
Definition remove_node (G : t) (n : string) : t :=
  match ODict.get n G with
  | Some nbrs =>
      ODict.del n (fold_left (fun g u => del_adj g u n) (ODict.keys nbrs) G)
  | None => G
  end.

Definition remove_nodes_from (G : t) (ns : list string) : t :=
  fold_left remove_node ns G.

End Graph.

(** [itertools.combinations(l, 2)] *)
Fixpoint combinations2 {A} (l : list A) : list (A * A) :=
  match l with
  | [] => []
  | x :: t => map (pair x) t ++ combinations2 t
  end.

(** The body of the loop over the pairs: [weight += 1] on an edge that is
    there, a new edge of weight 1 otherwise. *)
Definition add_pair (G : Graph.t) (pair : string * string) : Graph.t :=
  let (a, b) := pair in
  match Graph.weight G a b with
  | Some w => Graph.set_adj (Graph.set_adj G a b (w + 1)) b a (w + 1)
  | None => Graph.add_edge G a b 1
  end.

(** One row of the loop over [df.iterrows()]. *)
Definition add_row (G : Graph.t) (author_list : list string) : Graph.t :=
  let authors := slice_to author_list 5 in
  let G := fold_left Graph.add_node authors G in
  if (2 <=? length authors)%nat
  then fold_left add_pair (combinations2 authors) G
  else G.

(** The graph after the loop over the rows. *)
Definition coauthor_graph (df : list Row.t) : Graph.t :=
  fold_left add_row (map Row.author_list df) Graph.empty.

(** The graph after [G.remove_nodes_from(list(nx.isolates(G)))]. *)
Definition pruned_graph (df : list Row.t) : Graph.t :=
  let G := coauthor_graph df in
  Graph.remove_nodes_from G (Graph.isolates G).

(** ** Centrality: [nx.degree_centrality], [nx.betweenness_centrality] *)

Module Centrality.

Local Open Scope Q_scope.

(** [nx.degree_centrality(G)]: the degree times [1 / (n - 1)]; on a graph
    of at most one node every score is 1. *)
Definition degree_centrality (G : Graph.t) : list (string * Q) :=
  let n := Z.of_nat (length (Graph.nodes G)) in
  if (n <=? 1)%Z then map (fun v => (v, 1)) (Graph.nodes G)
  else
    let s := 1 / inject_Z (n - 1) in
    map (fun v => (v, inject_Z (Graph.degree G v) * s)) (Graph.nodes G).

Definition member (v : string) (l : list string) : bool :=
  existsb (String.eqb v) l.

(** The paths of [k] edges that leave [s] and never come back to a node,
    each with its last node first. *)
Fixpoint paths_from (G : Graph.t) (s : string) (k : nat) : list (list string) :=
  match k with
  | O => [[s]]
  | S k' =>
      flat_map
        (fun p =>
           match p with
           | [] => []
           | u :: _ =>
               map (fun v => v :: p)
                   (List.filter (fun v => negb (member v p))
                                (ODict.keys (Graph.adj G u)))
           end)
        (paths_from G s k')
  end.

Definition ends_at (t : string) (p : list string) : bool :=
  match p with
  | u :: _ => String.eqb u t
  | [] => false
  end.

Definition nonempty {A} (l : list A) : bool :=
  match l with
  | [] => false
  | _ :: _ => true
  end.

(** The shortest paths from [s] to [t]: those of the least number of
    edges for which there is one. *)
Definition shortest_paths (G : Graph.t) (s t : string) : list (list string) :=
  hd [] (List.filter nonempty
           (map (fun k => List.filter (ends_at t) (paths_from G s k))
                (seq 0 (length (Graph.nodes G))))).

(** The share of the shortest paths from [s] to [t] that pass through
    [v]; 0 when [t] cannot be reached. *)
Definition pair_dependency (G : Graph.t) (v s t : string) : Q :=
  let paths := shortest_paths G s t in
  match paths with
  | [] => 0
  | _ :: _ =>
      inject_Z (Z.of_nat (length (List.filter (member v) paths)))
      / inject_Z (Z.of_nat (length paths))
  end.

Definition Qsum (l : list Q) : Q := fold_right Qplus 0 l.

Definition differs (v u : string) : bool := negb (String.eqb u v).

(** The sum over the ordered pairs of other nodes. *)
Definition betweenness_sum (G : Graph.t) (v : string) : Q :=
  let others := List.filter (differs v) (Graph.nodes G) in
  Qsum (map (fun s =>
               Qsum (map (pair_dependency G v s)
                         (List.filter (differs s) others)))
            others).

(** [nx.betweenness_centrality(G)]: normalised by [1 / ((n-1)(n-2))] when
    the graph has more than two nodes. *)
Definition betweenness_centrality (G : Graph.t) : list (string * Q) :=
  let n := Z.of_nat (length (Graph.nodes G)) in
  map (fun v =>
         (v, if (n <=? 2)%Z then betweenness_sum G v
             else betweenness_sum G v * (1 / inject_Z ((n - 1) * (n - 2)))))
      (Graph.nodes G).

(** [sorted(cent.items(), key=lambda x: x[1], reverse=True)] *)
Definition sorted_desc (items : list (string * Q)) : list (string * Q) :=
  StableSort.sort (fun a b => Qle_bool b a) snd items.

End Centrality.

(** The entries of the adjacency kept when the nodes [ns] are removed. *)
Definition kept (ns : list string) (e : string * list (string * Z)) : bool :=
  negb (Centrality.member (fst e) ns).

(** A score lies between 0 and 1. *)
Definition unit_score (item : string * Q) : Prop :=
  (0 <= snd item /\ snd item <= 1)%Q.

(** The order of a ranking: no score before a greater one. *)
Definition descending (a b : string * Q) : Prop := (snd b <= snd a)%Q.

(** [calculate_author_centrality] *)
Definition calculate_author_centrality (df : list Row.t)
  : list (string * Q) * list (string * Q) :=
  let G := pruned_graph df in
  if (length (Graph.nodes G) <? 2)%nat then ([], [])
  else
    let degree_cent := Centrality.degree_centrality G in
    let top_degree := slice_to (Centrality.sorted_desc degree_cent) 5 in
    let betweenness_cent := Centrality.betweenness_centrality G in
    let top_betweenness :=
      slice_to (Centrality.sorted_desc betweenness_cent) 5 in
    (top_degree, top_betweenness).

(** ** Presentation helpers *)

(** [s[:n]] for a string and a bound that is not negative. *)
Fixpoint take (n : nat) (s : string) : string :=
  match n, s with
  | O, _ => EmptyString
  | S _, EmptyString => EmptyString
  | S n', String c s' => String c (take n' s')
  end.

(** [s.replace(c, d)] for one-character strings [c] and [d]. *)
Fixpoint replace_char (c d : ascii) (s : string) : string :=
  match s with
  | EmptyString => EmptyString
  | String a s' =>
      String (if Ascii.eqb a c then d else a) (replace_char c d s')
  end.

(** [f"KeyPaper_{search_query[:15].replace(' ', '_')}.csv"] *)
Definition csv_file_name (search_query : string) : string :=
  ("KeyPaper_" ++ replace_char " " "_" (take 15 search_query) ++ ".csv")%string.

(** [row['authors'][:150]] and the dots that follow it. *)
Definition shown_authors (authors : string) : string :=
  (take 150 authors
   ++ (if (150 <? String.length authors)%nat then "..." else ""))%string.

(** [row['abstract'][:600] + "..." if len(row['abstract']) > 600 else
    row['abstract']] *)
Definition shown_abstract (abstract : string) : string :=
  if (600 <? String.length abstract)%nat
  then (take 600 abstract ++ "...")%string
  else abstract.

(** * Examples *)

Module Examples.

Local Open Scope string_scope.

Definition row_of (names : list string) : Row.t :=
  {| Row.id := None; Row.title := None; Row.year := None;
     Row.cited_by_count := None; Row.type := Research;
     Row.authors := Str.join "; " (slice_to names 5);
     Row.author_list := names; Row.journal := None; Row.doi := None;
     Row.abstract := "" |}.

(** A work that has only a year and a citation count. *)
Definition work_of (year cited : field Z) : RawWork.t :=
  {| RawWork.id := Missing; RawWork.doi := Missing; RawWork.title := Missing;
     RawWork.publication_year := year; RawWork.cited_by_count := cited;
     RawWork.type := Missing; RawWork.authorships := Missing;
     RawWork.primary_location := Missing;
     RawWork.abstract_inverted_index := Missing |}.

(** Works with a [null] where the API has a title or the authorships. *)
Definition work_null_title : RawWork.t :=
  {| RawWork.id := Val "W1"; RawWork.doi := Null; RawWork.title := Null;
     RawWork.publication_year := Val 2020; RawWork.cited_by_count := Null;
     RawWork.type := Val "article"; RawWork.authorships := Val [];
     RawWork.primary_location := Null;
     RawWork.abstract_inverted_index := Null |}.

Definition work_null_authorships : RawWork.t :=
  {| RawWork.id := Val "W2"; RawWork.doi := Missing;
     RawWork.title := Val "A Survey";
     RawWork.publication_year := Val 2021; RawWork.cited_by_count := Val 4;
     RawWork.type := Val "article"; RawWork.authorships := Null;
     RawWork.primary_location := Missing;
     RawWork.abstract_inverted_index := Missing |}.

Definition authorship_of (name : field string) : RawWork.Authorship :=
  {| RawWork.author := Val {| RawWork.display_name := name |} |}.

(** A work as the API sends it, one author without a name. *)
Definition work_full : RawWork.t :=
  {| RawWork.id := Val "W3"; RawWork.doi := Val "https://doi.org/10.1/x";
     RawWork.title := Val "Measuring Team Science";
     RawWork.publication_year := Val 2019; RawWork.cited_by_count := Val 12;
     RawWork.type := Val "article";
     RawWork.authorships :=
       Val [authorship_of (Val "Ada"); authorship_of Null;
            authorship_of (Val "Bo");
            {| RawWork.author := Missing |}];
     RawWork.primary_location :=
       Val {| RawWork.source :=
                Val {| RawWork.source_display_name := Val "Scientometrics" |} |};
     RawWork.abstract_inverted_index :=
       Val [("science", [1]); ("team", [0])] |}.

(** A successful reply: a page, a total and the next cursor. *)
Definition reply_of (page : list RawWork.t) (total : Z) (next : field string)
  : Outcome :=
  Json {| meta := Val {| count := Val total; next_cursor := next |};
          results := Val page |}.

Definition a_work : RawWork.t := work_of (Val 2020) (Val 1).

(** Two pages of two records, then nothing more. *)
Definition two_pages : Transport :=
  fun n _ =>
    match n with
    | O => reply_of [a_work; work_full] 4 (Val "c1")
    | S O => reply_of [work_null_title; a_work] 4 Null
    | _ => reply_of [] 4 Null
    end.

(** A query with three matches: one page, no cursor after it. *)
Definition three_matches : Transport :=
  fun n _ =>
    match n with
    | O => reply_of [a_work; work_full; a_work] 3 Null
    | _ => reply_of [] 3 Null
    end.

(** A first page of 200 records, then the connection breaks. *)
Definition breaks_on_second : Transport :=
  fun n _ =>
    match n with
    | O => reply_of (repeat a_work 200) 1000 (Val "c1")
    | _ => RequestException
    end.

End Examples.

(** ** The properties as the specification words them *)

Module Spec.

(** Re-splitting the reconstructed abstract gives the words of the
    [(position, word)] entries, each entry once, by ascending position. *)
Definition resplit_agrees (index : InvertedIndex) : Prop :=
  exists entries : list (Z * string),
    Permutation entries (word_positions index)
    /\ StronglySorted (fun a b => fst a <= fst b) entries
    /\ Str.split_spaces (reconstruct_abstract (Some index)) = map snd entries.

(** A page request failed: the network call raised, the status was an
    error, the body was not JSON, or the JSON has a null [meta], on which
    [.get] raises inside the [try] block as well. *)
Definition request_failure (reply : Outcome) : Prop :=
  reply = RequestException
  \/ reply = HTTPError
  \/ reply = JSONDecodeError
  \/ exists results, reply = Json {| meta := Null; results := results |}.

(** The classifier as an ordered list of (keywords, label) rules. *)
Definition RULES : list (list string * PaperType) :=
  [ (["review"; "overview"; "state-of-the-art"], Review);
    (["framework"; "model"; "theory"], Framework);
    (["assess"; "evaluat"; "measur"; "effectiveness"], Eval) ]%string.

(** The label of the first rule one of whose keywords is in the title;
    [Research] when there is none. *)
Fixpoint first_match (rules : list (list string * PaperType)) (title_lower : string)
  : PaperType :=
  match rules with
  | [] => Research
  | (keywords, label) :: rest =>
      if existsb (fun k => Str.contains k title_lower) keywords then label
      else first_match rest title_lower
  end.

(** The invariant of a normalized record for a queried year range. *)
Definition record_invariant (year_from year_to : Z) (row : Row.t) : Prop :=
  (exists c, Row.cited_by_count row = Some c /\ 0 <= c)
  /\ (Row.year row = None
      \/ exists y, Row.year row = Some y
                   /\ 1000 <= y <= 9999 /\ year_from <= y <= year_to).

(** The same invariant, read on the raw work: the count is missing or a
    non-negative integer, the year missing, null or in range. *)
Definition raw_invariant (year_from year_to : Z) (work : RawWork.t) : Prop :=
  (RawWork.cited_by_count work = Missing
   \/ exists c, RawWork.cited_by_count work = Val c /\ 0 <= c)
  /\ (RawWork.publication_year work = Missing
      \/ RawWork.publication_year work = Null
      \/ exists y, RawWork.publication_year work = Val y
                   /\ 1000 <= y <= 9999 /\ year_from <= y <= year_to).

(** The author data of a work can be read: [authorships] is missing or a
    list, and none of its first ten entries has a null [author]. *)
Definition authors_readable (work : RawWork.t) : Prop :=
  RawWork.authorships work <> Null
  /\ forall l, RawWork.authorships work = Val l ->
               Forall (fun a => RawWork.author a <> Null) (firstn 10 l).

(** The journal name the work carries, if its location and source are
    there. *)
Definition journal_field (work : RawWork.t) : field string :=
  match RawWork.primary_location work with
  | Val location =>
      match RawWork.source location with
      | Val source => RawWork.source_display_name source
      | Missing | Null => Missing
      end
  | Missing | Null => Missing
  end.

(** What a row holds for a work: defaults for missing keys, [None] for a
    key that is there with [null]. *)
Definition normalized (work : RawWork.t) (row : Row.t) : Prop :=
  (RawWork.title work = Missing -> Row.title row = Some EmptyString)
  /\ (RawWork.title work = Null -> Row.title row = None)
  /\ (RawWork.doi work = Missing -> Row.doi row = Some EmptyString)
  /\ (RawWork.doi work = Null -> Row.doi row = None)
  /\ (journal_field work = Missing -> Row.journal row = Some EmptyString)
  /\ (journal_field work = Null -> Row.journal row = None)
  /\ (RawWork.cited_by_count work = Missing -> Row.cited_by_count row = Some 0)
  /\ (RawWork.cited_by_count work = Null -> Row.cited_by_count row = None)
  /\ (RawWork.publication_year work = Missing
      \/ RawWork.publication_year work = Null -> Row.year row = None)
  /\ (RawWork.title work = Missing \/ RawWork.title work = Null ->
      Row.type row = Research)
  /\ (forall s, RawWork.title work = Val s -> Row.title row = Some s)
  /\ (forall s, RawWork.doi work = Val s -> Row.doi row = Some s)
  /\ (forall s, journal_field work = Val s -> Row.journal row = Some s)
  /\ (forall c, RawWork.cited_by_count work = Val c ->
                Row.cited_by_count row = Some c)
  /\ (forall y, RawWork.publication_year work = Val y -> Row.year row = Some y).

(** The invariant of the co-authorship graph. *)
Definition weights_at_least_1 (G : Graph.t) : Prop :=
  forall u v w, Graph.weight G u v = Some w -> 1 <= w.

Definition no_self_loops (G : Graph.t) : Prop :=
  forall u, Graph.weight G u u = None.

(** [(u, v)] is the pair [(a, b)] in one of its two orientations. *)
Definition is_pair (a b u v : string) : bool :=
  ((String.eqb a u && String.eqb b v) || (String.eqb b u && String.eqb a v))%bool.

(** The weight of a pair after one more shared paper. *)
Definition one_more (w : option Z) : Z :=
  match w with
  | Some w => w + 1
  | None => 1
  end.

(** The adjacency structure is that of an undirected graph: no node and
    no neighbour listed twice, every neighbour a node, every edge listed
    from both ends. *)
Record well_formed (G : Graph.t) : Prop := {
  wf_nodes : NoDup (Graph.nodes G);
  wf_adj : forall u, NoDup (ODict.keys (Graph.adj G u));
  wf_closed : forall u v, Graph.has_edge G u v = true -> In v (Graph.nodes G);
  wf_sym : forall u v, Graph.has_edge G u v = true -> Graph.has_edge G v u = true
}.

(** An edge has the same weight read from either end. *)
Definition weights_symmetric (G : Graph.t) : Prop :=
  forall u v, Graph.weight G u v = Graph.weight G v u.

(** The number of rows that list both [u] and [v] among their first five
    authors. *)
Definition shared_papers (u v : string) (df : list Row.t) : nat :=
  length
    (List.filter
       (fun row =>
          (Centrality.member u (firstn 5 (Row.author_list row))
           && Centrality.member v (firstn 5 (Row.author_list row)))%bool)
       df).

(** The weight of an edge that [k] more papers share. *)
Definition more (k : nat) (w : option Z) : option Z :=
  match k, w with
  | O, _ => w
  | S _, Some w => Some (w + Z.of_nat k)
  | S _, None => Some (Z.of_nat k)
  end.

(** How many of the pairs are the pair [(u, v)], in either orientation. *)
Definition matching_pairs (u v : string) (pairs : list (string * string)) : nat :=
  length (List.filter (fun p => is_pair (fst p) (snd p) u v) pairs).

(** No name comes twice among the first five authors of a row. *)
Definition distinct_authors (row : Row.t) : Prop :=
  NoDup (firstn 5 (Row.author_list row)).

End Spec.

(** * Properties *)

(** ** Stable sorting *)

Section SortFacts.
Context {A K : Type}.
Variable before : K -> K -> bool.
Variable key : A -> K.

Lemma insert_perm x l : Permutation (x :: l) (StableSort.insert before key x l).
Proof.
  induction l as [|y t IH]; simpl.
  - apply Permutation_refl.
  - destruct (before (key x) (key y)).
    + apply Permutation_refl.
    + eapply perm_trans; [apply perm_swap|].
      now apply perm_skip.
Qed.

Lemma sort_perm l : Permutation l (StableSort.sort before key l).
Proof.
  induction l as [|x t IH]; simpl.
  - constructor.
  - eapply perm_trans; [apply perm_skip, IH | apply insert_perm].
Qed.

Lemma sort_length l : length (StableSort.sort before key l) = length l.
Proof. symmetry. apply Permutation_length, sort_perm. Qed.

Hypothesis before_total : forall a b, before a b = false -> before b a = true.
Hypothesis before_trans :
  forall a b c, before a b = true -> before b c = true -> before a c = true.

Lemma insert_sorted x l :
  StronglySorted (StableSort.ordered before key) l ->
  StronglySorted (StableSort.ordered before key) (StableSort.insert before key x l).
Proof.
  induction 1 as [|y t Hs IH Hall]; simpl.
  - constructor; constructor.
  - destruct (before (key x) (key y)) eqn:E.
    + constructor; [constructor; assumption|].
      constructor; [exact E|].
      eapply Forall_impl; [|exact Hall].
      intros z Hz. unfold StableSort.ordered in *. eauto.
    + constructor; [exact IH|].
      eapply Permutation_Forall; [apply insert_perm|].
      constructor; [|exact Hall].
      unfold StableSort.ordered. now apply before_total.
Qed.

Lemma sort_sorted l :
  StronglySorted (StableSort.ordered before key) (StableSort.sort before key l).
Proof.
  induction l as [|x t IH]; simpl.
  - constructor.
  - now apply insert_sorted.
Qed.

End SortFacts.

Lemma StronglySorted_impl {A} (R S : A -> A -> Prop) l :
  (forall a b, R a b -> S a b) -> StronglySorted R l -> StronglySorted S l.
Proof.
  intros HRS. induction 1 as [|x t Hs IH Hall]; constructor; auto.
  eapply Forall_impl; [|exact Hall]. auto.
Qed.

Lemma In_firstn {A} (x : A) n l : In x (firstn n l) -> In x l.
Proof.
  revert l. induction n as [|n IH]; intros [|y t]; simpl; try tauto.
  intros [H|H]; auto.
Qed.

Lemma StronglySorted_firstn {A} (R : A -> A -> Prop) n l :
  StronglySorted R l -> StronglySorted R (firstn n l).
Proof.
  intros H. revert n. induction H as [|x t Hs IH Hall]; intros [|n]; simpl;
    try constructor; auto.
  rewrite Forall_forall in *. intros y Hy. apply Hall.
  eapply In_firstn; eauto.
Qed.

(** ** Strings *)

Section StrFacts.
Local Open Scope string_scope.

Lemma split_at_spaceless w :
  Str.spaceless w = true -> Str.split_at " " w = (w, []).
Proof.
  induction w as [|a w IH]; simpl; [reflexivity|].
  intros H. apply andb_true_iff in H as [Ha Hw].
  rewrite (IH Hw). apply negb_true_iff in Ha. now rewrite Ha.
Qed.

Lemma split_at_app w rest :
  Str.spaceless w = true ->
  Str.split_at " " (w ++ String " " rest) = (w, Str.split_spaces rest).
Proof.
  unfold Str.split_spaces.
  induction w as [|a w IH]; simpl.
  - intros _. now destruct (Str.split_at " " rest).
  - intros H. apply andb_true_iff in H as [Ha Hw].
    rewrite (IH Hw). apply negb_true_iff in Ha. now rewrite Ha.
Qed.

Lemma split_join ws :
  ws <> [] ->
  Forall (fun w => Str.spaceless w = true) ws ->
  Str.split_spaces (Str.join " " ws) = ws.
Proof.
  intros Hne Hall. induction Hall as [|w t Hw Ht IH]; [congruence|].
  destruct t as [|w' t'].
  - simpl. unfold Str.split_spaces. now rewrite split_at_spaceless.
  - unfold Str.join in *.
    change (String.concat " " (w :: w' :: t'))
      with (w ++ String " " (String.concat " " (w' :: t'))).
    unfold Str.split_spaces at 1. rewrite split_at_app by assumption.
    rewrite IH; [reflexivity | discriminate].
Qed.

Lemma prefix_app needle hay :
  prefix needle hay = true <-> exists post, hay = needle ++ post.
Proof.
  revert hay. induction needle as [|a n IH]; intros hay; simpl.
  - split; [intros _; now exists hay | intros _; now destruct hay].
  - destruct hay as [|b h].
    + split; [discriminate | intros [post H]; discriminate].
    + simpl. destruct (ascii_dec a b) as [Hab|Hab].
      * rewrite IH. split; intros [post H]; exists post; congruence.
      * split; [discriminate | intros [post H]; congruence].
Qed.

(** [Str.contains] is the substring test. *)
Lemma contains_substring needle hay :
  Str.contains needle hay = true <->
  exists pre post, hay = pre ++ needle ++ post.
Proof.
  induction hay as [|b h IH].
  - change (Str.contains needle "") with (prefix needle "" || false)%bool.
    rewrite orb_false_r, prefix_app. split.
    + intros [post H]. now exists "", post.
    + intros [[|c pre] [post H]]; [now exists post | discriminate].
  - change (Str.contains needle (String b h))
      with (prefix needle (String b h) || Str.contains needle h)%bool.
    rewrite orb_true_iff, prefix_app, IH. split.
    + intros [[post H]|[pre [post H]]].
      * now exists "", post.
      * exists (String b pre), post. simpl. now rewrite H.
    + intros [[|c pre] [post H]].
      * left. now exists post.
      * right. exists pre, post. simpl in H. congruence.
Qed.

Lemma lower_ascii_idem c : Str.lower_ascii (Str.lower_ascii c) = Str.lower_ascii c.
Proof. destruct c as [[] [] [] [] [] [] [] []]; reflexivity. Qed.

Lemma lower_idem s : Str.lower (Str.lower s) = Str.lower s.
Proof.
  induction s as [|c s IH]; simpl; [reflexivity|].
  now rewrite lower_ascii_idem, IH.
Qed.

End StrFacts.

(** ** Abstract reconstructor *)

Lemma sort_by_position_perm l : Permutation l (sort_by_position l).
Proof. apply sort_perm. Qed.

Lemma sort_by_position_sorted l :
  StronglySorted (fun a b => fst a <= fst b) (sort_by_position l).
Proof.
  eapply StronglySorted_impl; [|apply (sort_sorted Z.leb fst)].
  - intros a b H. now apply Z.leb_le.
  - intros a b H. apply Z.leb_gt in H. apply Z.leb_le. lia.
  - intros a b c H1 H2. apply Z.leb_le in H1, H2. apply Z.leb_le. lia.
Qed.

Lemma reconstruct_nonempty index :
  word_positions index <> [] ->
  reconstruct_abstract (Some index)
  = Str.join " " (map snd (sort_by_position (word_positions index))).
Proof. destruct index; [intros H; now elim H | reflexivity]. Qed.

(** C4 (as amended): for every word -> positions mapping that lists at
    least one position and in which no listed word contains a space,
    splitting the reconstructed abstract on spaces gives exactly the words
    of the (position, word) entries, each entry once, in ascending order of
    position. *)
Theorem C4_resplit_sorted_words (index : InvertedIndex) :
  word_positions index <> [] ->
  Forall (fun e => Str.spaceless (snd e) = true) (word_positions index) ->
  Str.split_spaces (reconstruct_abstract (Some index))
  = map snd (sort_by_position (word_positions index))
  /\ Spec.resplit_agrees index.
Proof.
  intros Hne Hwords.
  assert (Hsplit : Str.split_spaces (reconstruct_abstract (Some index))
                   = map snd (sort_by_position (word_positions index))).
  { rewrite reconstruct_nonempty by assumption. apply split_join.
    - intros Hnil. apply map_eq_nil in Hnil. apply Hne.
      apply Permutation_nil. rewrite <- Hnil.
      apply Permutation_sym, sort_by_position_perm.
    - apply Forall_map.
      eapply Permutation_Forall; [apply sort_by_position_perm | exact Hwords]. }
  split; [exact Hsplit|].
  exists (sort_by_position (word_positions index)). repeat split.
  - apply Permutation_sym, sort_by_position_perm.
  - apply sort_by_position_sorted.
  - exact Hsplit.
Qed.

Lemma C4_resplit_witness :
  Str.split_spaces
    (reconstruct_abstract
       (Some [("world", [1; 3]); ("hello", [0; 2])]%string))
  = ["hello"; "world"; "hello"; "world"]%string.
Proof.
  refine (proj1 (C4_resplit_sorted_words
                   [("world", [1; 3]); ("hello", [0; 2])]%string _ _)).
  - simpl. discriminate.
  - simpl. repeat constructor.
Defined.

(** C4 as stated fails: a mapping whose only word has no position gives
    the empty abstract, which splits into one empty word; a word with a
    space in it comes back as two words. *)
Lemma C4_resplit_counterexample :
  (([("a", [])]%string : InvertedIndex) <> []
   /\ ~ Spec.resplit_agrees [("a", [])]%string)
  /\ (([("a b", [0])]%string : InvertedIndex) <> []
      /\ ~ Spec.resplit_agrees [("a b", [0])]%string).
Proof.
  split; (split; [discriminate|]); intros [entries [Hperm [_ Hsplit]]].
  - simpl in Hperm. apply Permutation_sym, Permutation_nil in Hperm.
    subst entries. discriminate Hsplit.
  - simpl in Hperm. apply Permutation_sym, Permutation_length_1_inv in Hperm.
    subst entries. discriminate Hsplit.
Qed.

(** ** Record normalizer *)

Lemma process_work_type work row :
  process_work work = Ok row ->
  Row.type row = paper_type_of (title_lower_of (RawWork.title work)).
Proof.
  unfold process_work. destruct (collect_authors _); simpl; [|discriminate].
  intros H. injection H as <-. reflexivity.
Qed.

Lemma title_lower_of_val t : title_lower_of (Val t) = Str.lower t.
Proof. reflexivity. Qed.

(** C5: the paper type is read off the lower-cased title alone, by
    substring tests, the rules tried in the order Review, Framework, Eval
    and the first that matches winning, Research when none does; so
    "A Systematic Review and Framework" is a Review. *)
Theorem C5_paper_type_priority :
  (forall title_lower,
      paper_type_of title_lower = Spec.first_match Spec.RULES title_lower)
  /\ (forall needle hay,
         Str.contains needle hay = true <->
         exists pre post, hay = (pre ++ needle ++ post)%string)
  /\ (forall work row,
         process_work work = Ok row ->
         Row.type row = paper_type_of (title_lower_of (RawWork.title work)))
  /\ (forall t t',
         Str.lower t = Str.lower t' ->
         paper_type_of (title_lower_of (Val t))
         = paper_type_of (title_lower_of (Val t')))
  /\ (forall t,
         paper_type_of (title_lower_of (Val (Str.lower t)))
         = paper_type_of (title_lower_of (Val t)))
  /\ paper_type_of (title_lower_of (Val "A Systematic Review and Framework"%string))
     = Review
  /\ paper_type_of (title_lower_of (Val "A Review of Deep Learning Methods"%string))
     = Review.
Proof.
  split; [|split; [|split; [|split; [|split; [|split]]]]].
  - intros tl. unfold paper_type_of, Spec.first_match, Spec.RULES, existsb.
    rewrite !orb_false_r, !orb_assoc. reflexivity.
  - apply contains_substring.
  - apply process_work_type.
  - intros t t' H. now rewrite !title_lower_of_val, H.
  - intros t. now rewrite !title_lower_of_val, lower_idem.
  - reflexivity.
  - reflexivity.
Qed.

Lemma process_work_counts work row :
  process_work work = Ok row ->
  Row.cited_by_count row = get_or (RawWork.cited_by_count work) 0
  /\ Row.year row = get (RawWork.publication_year work).
Proof.
  unfold process_work. destruct (collect_authors _); simpl; [|discriminate].
  intros H. injection H as <-. split; reflexivity.
Qed.

(** C9 (as amended): the normalizer copies [cited_by_count] and
    [publication_year] as they are (0 for a missing count, null for a
    missing or null year), so the row satisfies the invariant -- a
    non-negative count, a year that is null or a 4-digit integer in the
    queried range -- exactly when the raw work does. *)
Theorem C9_invariant_carried_over (year_from year_to : Z) (work : RawWork.t)
  (row : Row.t) :
  process_work work = Ok row ->
  Row.cited_by_count row = get_or (RawWork.cited_by_count work) 0
  /\ Row.year row = get (RawWork.publication_year work)
  /\ (Spec.record_invariant year_from year_to row
      <-> Spec.raw_invariant year_from year_to work).
Proof.
  intros H. apply process_work_counts in H as [Hc Hy].
  split; [exact Hc|]. split; [exact Hy|].
  unfold Spec.record_invariant, Spec.raw_invariant. rewrite Hc, Hy.
  destruct (RawWork.cited_by_count work) as [| |c];
    destruct (RawWork.publication_year work) as [| |y]; simpl;
    split; intros [H1 H2]; split;
    repeat match goal with
      | H : _ \/ _ |- _ => destruct H
      | H : exists _, _ |- _ => destruct H as [? [? ?]]
      | H : Some _ = Some _ |- _ => injection H as <-
      | H : Val _ = Val _ |- _ => injection H as <-
      end;
    try discriminate;
    eauto 6 using Z.le_refl.
Qed.

Lemma C9_invariant_witness :
  Spec.record_invariant 2015 2025
    {| Row.id := Some ""%string; Row.title := Some ""%string;
       Row.year := Some 2020; Row.cited_by_count := Some 3;
       Row.type := Research; Row.authors := ""%string;
       Row.author_list := []; Row.journal := Some ""%string;
       Row.doi := Some ""%string; Row.abstract := ""%string |}
  <-> Spec.raw_invariant 2015 2025 (Examples.work_of (Val 2020) (Val 3)).
Proof.
  refine (proj2 (proj2 (C9_invariant_carried_over 2015 2025
                          (Examples.work_of (Val 2020) (Val 3)) _ _))).
  reflexivity.
Defined.

(** C9 as stated fails: the normalizer never sees the queried range and
    checks nothing; a work of 1999 with a negative count goes through as
    it is. *)
Lemma C9_invariant_counterexample :
  exists row,
    process_work (Examples.work_of (Val 1999) (Val (-1))) = Ok row
    /\ Row.year row = Some 1999
    /\ Row.cited_by_count row = Some (-1)
    /\ ~ Spec.record_invariant 2015 2025 row.
Proof.
  eexists. split; [reflexivity|]. simpl. repeat split.
  intros [[c [Hc Hpos]] _]. injection Hc as <-. lia.
Qed.

Lemma kept_name_ok a :
  RawWork.author a <> Null -> exists names, kept_name a = Ok names.
Proof.
  unfold kept_name. destruct a as [[| |[[| |name]]]]; simpl; intros H.
  - now eexists.
  - congruence.
  - now eexists.
  - now eexists.
  - destruct (String.eqb name ""); now eexists.
Qed.

Lemma mapM_ok {A B} (f : A -> result B) l :
  Forall (fun a => exists b, f a = Ok b) l -> exists bs, mapM f l = Ok bs.
Proof.
  induction 1 as [|a t [b Hb] _ [bs Hbs]]; simpl.
  - now eexists.
  - rewrite Hb. simpl. rewrite Hbs. simpl. now eexists.
Qed.

Lemma collect_authors_ok work :
  Spec.authors_readable work ->
  exists names, collect_authors (RawWork.authorships work) = Ok names.
Proof.
  intros [Hnull Hall]. unfold collect_authors.
  destruct (RawWork.authorships work) as [| |l]; simpl.
  - now eexists.
  - congruence.
  - destruct (mapM_ok kept_name (firstn 10 l)) as [names Hn].
    + eapply Forall_impl; [|apply (Hall l eq_refl)].
      intros a. apply kept_name_ok.
    + change (slice_to l 10) with (firstn 10 l). rewrite Hn. now eexists.
Qed.

Lemma process_work_normalized work row :
  process_work work = Ok row -> Spec.normalized work row.
Proof.
  unfold process_work. destruct (collect_authors _); simpl; [|discriminate].
  intros H. injection H as <-.
  unfold Spec.normalized, Spec.journal_field, title_lower_of. simpl.
  destruct work as [i d t y c ty au [| |[[| |[[| |j]]]]] ab]; simpl;
    repeat split; intros; subst; simpl;
    repeat match goal with H : _ \/ _ |- _ => destruct H end;
    subst; try reflexivity; try discriminate; try congruence.
Qed.

Lemma mapM_Forall2 {A B} (f : A -> result B) l bs :
  mapM f l = Ok bs -> Forall2 (fun a b => f a = Ok b) l bs.
Proof.
  revert bs. induction l as [|a t IH]; simpl; intros bs H.
  - injection H as <-. constructor.
  - destruct (f a) eqn:Ea; simpl in H; [|discriminate].
    destruct (mapM f t) eqn:Et; simpl in H; [|discriminate].
    injection H as <-. constructor; auto.
Qed.

(** C10 (as amended): for every list of raw works whose author data can
    be read ([authorships] missing or a list, no null [author] among its
    first ten entries), whatever else is missing or null, normalization
    succeeds and gives one row per work, in the order of the works; a
    missing title, journal or doi becomes the empty string, a missing
    count 0, a missing or null year null, a key that is present with null
    stays null (a null location or source counts as missing), and a
    missing or null title is classified Research. *)
Theorem C10_normalization_defaults (works : list RawWork.t) :
  Forall Spec.authors_readable works ->
  exists rows,
    process_results works = Ok rows
    /\ length rows = length works
    /\ Forall2 (fun work row => process_work work = Ok row) works rows
    /\ Forall2 Spec.normalized works rows.
Proof.
  intros Hall. unfold process_results.
  destruct (mapM_ok process_work works) as [rows Hrows].
  - eapply Forall_impl; [|exact Hall].
    intros work Hw. unfold process_work.
    destruct (collect_authors_ok work Hw) as [names ->]. simpl. now eexists.
  - exists rows. split; [exact Hrows|].
    pose proof (mapM_Forall2 _ _ _ Hrows) as HF.
    split; [symmetry; eapply Forall2_length; exact HF|].
    split; [exact HF|].
    eapply Forall2_impl; [|exact HF].
    intros work row. apply process_work_normalized.
Qed.

Lemma C10_normalization_witness :
  exists rows,
    process_results [Examples.work_full; Examples.work_null_title] = Ok rows
    /\ length rows = 2%nat
    /\ Forall2 (fun work row => process_work work = Ok row)
               [Examples.work_full; Examples.work_null_title] rows
    /\ Forall2 Spec.normalized
               [Examples.work_full; Examples.work_null_title] rows.
Proof.
  apply (C10_normalization_defaults
           [Examples.work_full; Examples.work_null_title]).
  repeat constructor; try discriminate;
    intros l H; injection H as <-; simpl; repeat constructor; discriminate.
Defined.

(** C10 as stated fails: a null [authorships] makes the normalizer raise,
    and a title, doi or count that is there with null stays null in the
    row instead of becoming the empty string or 0. *)
Lemma C10_normalization_counterexample :
  process_results [Examples.work_null_authorships] = Raise TypeError
  /\ exists row,
       process_results [Examples.work_null_title] = Ok [row]
       /\ Row.title row = None /\ Row.title row <> Some ""%string
       /\ Row.doi row = None
       /\ Row.cited_by_count row = None /\ Row.cited_by_count row <> Some 0.
Proof.
  split; [reflexivity|]. eexists. split; [reflexivity|]. simpl.
  repeat split; discriminate.
Qed.

(** ** Paginated fetcher *)

Lemma slice_to_length {A} (l : list A) n :
  0 <= n -> Z.of_nat (length (slice_to l n)) <= n.
Proof.
  intros H. unfold slice_to. destruct (0 <=? n) eqn:E; [|apply Z.leb_gt in E; lia].
  rewrite length_firstn. lia.
Qed.

Lemma pages_of_cons e log : pages_of (e :: log) = page_of (snd e) ++ pages_of log.
Proof. reflexivity. Qed.

Lemma pages_of_app l1 l2 : pages_of (l1 ++ l2) = pages_of l1 ++ pages_of l2.
Proof. unfold pages_of. now rewrite map_app, concat_app. Qed.

Lemma cursor_build_params q b c st sa sk :
  OpenAlex.cursor (build_params q b c st sa sk) = c.
Proof. unfold build_params. now destruct st, sa, sk. Qed.

Section FetchFacts.

Variable transport : Transport.
Variables (query : string) (year_from year_to : Z).
Variables (search_title search_abstract search_keyword : bool).
Variable max_results : Z.

Let run := fetch_loop transport query year_from year_to
                      search_title search_abstract search_keyword max_results.
Let Pag := Pagination transport query year_from year_to
                      search_title search_abstract search_keyword max_results.
Let request := request_for query year_from year_to
                           search_title search_abstract search_keyword.

(** The loop returns, and its exchanges follow the step relation. *)
Lemma fetch_loop_run fuel : forall all_results cursor total log0,
  (Z.to_nat max_results - length all_results <= fuel)%nat ->
  exists r suffix,
    run fuel all_results cursor total log0 = Some r
    /\ log r = log0 ++ suffix
    /\ Pag (length all_results) cursor (length log0) suffix
    /\ (any_failed suffix = true -> records r = [] /\ total_count r = Some 0)
    /\ (any_failed suffix = false ->
        records r = slice_to (all_results ++ pages_of suffix) max_results).
Proof.
  assert (Hcap : forall fuel all_results cursor total log0,
             (Z.of_nat (length all_results) <? max_results) = false ->
             exists r suffix,
               run fuel all_results cursor total log0 = Some r
               /\ log r = log0 ++ suffix
               /\ Pag (length all_results) cursor (length log0) suffix
               /\ (any_failed suffix = true ->
                   records r = [] /\ total_count r = Some 0)
               /\ (any_failed suffix = false ->
                   records r
                   = slice_to (all_results ++ pages_of suffix) max_results)).
  { intros f a c t l0 Hge. eexists; exists [].
    split; [unfold run; destruct f; simpl; rewrite Hge; reflexivity|].
    apply Z.ltb_ge in Hge. rewrite !app_nil_r.
    repeat split; try discriminate.
    apply stop_cap. lia. }
  induction fuel as [|fuel IH]; intros all_results cursor total log0 Hfuel;
    destruct (Z.of_nat (length all_results) <? max_results) eqn:Hlt;
    try (now apply Hcap).
  { apply Z.ltb_lt in Hlt. lia. }
  unfold run. simpl. rewrite Hlt.
  apply Z.ltb_lt in Hlt.
  set (params := build_params query (base_filter_of year_from year_to) cursor
                              search_title search_abstract search_keyword).
  set (reply := transport (length log0) params).
  destruct (try_page reply) as [[[data m] tc]|] eqn:Htry.
  - assert (Hok : failed reply = false) by (unfold failed; now rewrite Htry).
    assert (Hnf : any_failed [(params, reply)] = true -> False)
      by (unfold any_failed; simpl; rewrite Hok; discriminate).
    destruct (get_or (results data) []) as [[|w ws]|] eqn:Hres.
    + assert (Hpage : page_of reply = [])
        by (unfold page_of; now rewrite Htry, Hres).
      eexists; exists [(params, reply)]. split; [reflexivity|].
      split; [reflexivity|]. split; [|split].
      * apply stop_empty_page; auto.
      * intros H. now elim Hnf.
      * intros _. simpl. unfold pages_of. simpl. now rewrite Hpage, !app_nil_r.
    + assert (Hpage : page_of reply = w :: ws)
        by (unfold page_of; now rewrite Htry, Hres).
      destruct (get (next_cursor m)) as [c|] eqn:Hcur;
        [destruct (String.eqb c "") eqn:Hc|].
      * eexists; exists [(params, reply)]. split; [reflexivity|].
        split; [reflexivity|]. split; [|split].
        -- apply stop_no_cursor; auto; [now rewrite Hpage|].
           unfold cursor_of. now rewrite Htry, Hcur, Hc.
        -- intros H. now elim Hnf.
        -- intros _. simpl. unfold pages_of. simpl. now rewrite Hpage, app_nil_r.
      * destruct (IH (all_results ++ w :: ws) c tc (log0 ++ [(params, reply)]))
          as [r [suffix [Hrun [Hlog [Hpag [Hfail Hrec]]]]]].
        { rewrite length_app. simpl. lia. }
        exists r, ((params, reply) :: suffix). split; [exact Hrun|].
        split; [now rewrite Hlog, <- app_assoc|].
        split; [|split].
        -- eapply next_page; eauto; [now rewrite Hpage | |].
           ++ unfold cursor_of. now rewrite Htry, Hcur, Hc.
           ++ rewrite Hpage. rewrite !length_app in Hpag. simpl in Hpag.
              replace (S (length log0)) with (length log0 + 1)%nat by lia.
              exact Hpag.
        -- unfold any_failed. simpl. rewrite Hok. exact Hfail.
        -- unfold any_failed. simpl. rewrite Hok. intros Hnone.
           rewrite (Hrec Hnone), pages_of_cons. simpl. rewrite Hpage.
           now rewrite <- app_assoc.
      * eexists; exists [(params, reply)]. split; [reflexivity|].
        split; [reflexivity|]. split; [|split].
        -- apply stop_no_cursor; auto; [now rewrite Hpage|].
           unfold cursor_of. now rewrite Htry, Hcur.
        -- intros H. now elim Hnf.
        -- intros _. simpl. unfold pages_of. simpl. now rewrite Hpage, app_nil_r.
    + assert (Hpage : page_of reply = [])
        by (unfold page_of; now rewrite Htry, Hres).
      eexists; exists [(params, reply)]. split; [reflexivity|].
      split; [reflexivity|]. split; [|split].
      * apply stop_empty_page; auto.
      * intros H. now elim Hnf.
      * intros _. simpl. unfold pages_of. simpl. now rewrite Hpage, !app_nil_r.
  - assert (Hko : failed reply = true) by (unfold failed; now rewrite Htry).
    eexists; exists [(params, reply)]. split; [reflexivity|].
    split; [reflexivity|]. split; [|split].
    + apply stop_failure; auto.
    + intros _. split; reflexivity.
    + unfold any_failed. simpl. rewrite Hko. discriminate.
Qed.

Lemma search_openalex_run :
  exists r,
    search_openalex transport query year_from year_to
                    search_title search_abstract search_keyword max_results
    = Some r
    /\ Pag 0%nat "*"%string 0%nat (log r)
    /\ (any_failed (log r) = true -> records r = [] /\ total_count r = Some 0)
    /\ (any_failed (log r) = false ->
        records r = slice_to (pages_of (log r)) max_results).
Proof.
  destruct (fetch_loop_run (Z.to_nat max_results) [] "*"%string (Some 0) [])
    as [r [suffix [Hrun [Hlog [Hpag H]]]]]; [simpl; lia|].
  exists r. simpl in Hlog. subst suffix. now split.
Qed.

(** What the step relation says of the exchange at a position. *)

Lemma pagination_request acc cursor i log :
  Pag acc cursor i log ->
  forall k e, nth_error log k = Some e ->
    Z.of_nat (acc + length (pages_of (firstn k log))) < max_results
    /\ snd e = transport (i + k)%nat (fst e).
Proof.
  induction 1 as [acc cursor i Hcap | acc cursor i reply Hlt Hr Hf
                 | acc cursor i reply Hlt Hr Hf Hp
                 | acc cursor i reply Hlt Hr Hf Hp Hc
                 | acc cursor i reply next rest Hlt Hr Hf Hp Hc Hrest IH];
    intros [|k] e Hnth; simpl in Hnth;
    try (now destruct k); try discriminate;
    try (injection Hnth as <-; simpl; rewrite !Nat.add_0_r; now split).
  destruct (IH k e Hnth) as [H1 H2]. split.
  - simpl firstn. rewrite pages_of_cons, length_app. simpl snd. lia.
  - now replace (i + S k)%nat with (S i + k)%nat by lia.
Qed.

Lemma pagination_first acc cursor i log :
  Pag acc cursor i log ->
  forall e, nth_error log 0 = Some e -> fst e = request cursor.
Proof.
  destruct 1; intros e Hnth; simpl in Hnth; try discriminate;
    injection Hnth as <-; reflexivity.
Qed.

Lemma pagination_next acc cursor i log :
  Pag acc cursor i log ->
  forall k e e', nth_error log k = Some e -> nth_error log (S k) = Some e' ->
    failed (snd e) = false
    /\ page_of (snd e) <> []
    /\ cursor_of (snd e) = Some (OpenAlex.cursor (fst e')).
Proof.
  induction 1 as [acc cursor i Hcap | acc cursor i reply Hlt Hr Hf
                 | acc cursor i reply Hlt Hr Hf Hp
                 | acc cursor i reply Hlt Hr Hf Hp Hc
                 | acc cursor i reply next rest Hlt Hr Hf Hp Hc Hrest IH];
    intros k e e' Hk Hk'; simpl in Hk';
    try (now destruct k); try discriminate.
  destruct k as [|k]; simpl in Hk.
  - injection Hk as <-. simpl. repeat split; auto.
    rewrite (pagination_first _ _ _ _ Hrest e' Hk'). unfold request, request_for.
    now rewrite cursor_build_params.
  - eapply IH; eauto.
Qed.

Lemma pagination_empty_page acc cursor i log :
  Pag acc cursor i log ->
  forall k e, nth_error log k = Some e -> page_of (snd e) = [] ->
    length log = S k.
Proof.
  induction 1 as [acc cursor i Hcap | acc cursor i reply Hlt Hr Hf
                 | acc cursor i reply Hlt Hr Hf Hp
                 | acc cursor i reply Hlt Hr Hf Hp Hc
                 | acc cursor i reply next rest Hlt Hr Hf Hp Hc Hrest IH];
    intros [|k] e Hnth Hempty; simpl in Hnth;
    try (now destruct k); try discriminate; try reflexivity.
  - injection Hnth as <-. simpl in Hempty. contradiction.
  - simpl. f_equal. eapply IH; eauto.
Qed.

(** The loop stops for a reason: the last exchange failed, brought no
    record or no cursor, or the cap is reached. *)
Lemma pagination_last acc cursor i log :
  Pag acc cursor i log ->
  (log = [] -> ~ Z.of_nat acc < max_results)
  /\ forall l e, log = l ++ [e] ->
       failed (snd e) = true \/ page_of (snd e) = []
       \/ cursor_of (snd e) = None
       \/ ~ Z.of_nat (acc + length (pages_of log)) < max_results.
Proof.
  induction 1 as [acc cursor i Hcap | acc cursor i reply Hlt Hr Hf
                 | acc cursor i reply Hlt Hr Hf Hp
                 | acc cursor i reply Hlt Hr Hf Hp Hc
                 | acc cursor i reply next rest Hlt Hr Hf Hp Hc Hrest IH];
    (split; [try discriminate; auto|]); intros l e Hl.
  - now destruct l.
  - destruct l as [|x [|y l]]; try discriminate. injection Hl as <-. auto.
  - destruct l as [|x [|y l]]; try discriminate. injection Hl as <-. auto.
  - destruct l as [|x [|y l]]; try discriminate. injection Hl as <-. auto.
  - destruct IH as [IHnil IHlast]. destruct l as [|x l]; simpl in Hl.
    + injection Hl as <- Hrest'. subst rest. right. right. right.
      rewrite pages_of_cons. simpl. rewrite app_nil_r.
      unfold pages_of in IHnil. simpl in IHnil. now apply IHnil.
    + injection Hl as <- Hrest'.
      destruct (IHlast l e Hrest') as [H1|[H1|[H1|H1]]]; auto.
      right. right. right. rewrite pages_of_cons, length_app. simpl snd.
      now rewrite Nat.add_assoc.
Qed.




End FetchFacts.



(** The reference run of the discard-all policy: 200 records fetched, the
    second request fails, nothing is returned. *)
Example second_page_failure :
  option_map (fun r => (records r, total_count r, length (log r)))
    (search_openalex Examples.breaks_on_second "team science" 2015 2025
                     true true false 500)
  = Some ([], Some 0, 2%nat).
Proof. vm_compute. reflexivity. Qed.

(** C2: when every request succeeds, a request is made only while fewer
    than [max_results] records are held; every request after the first
    follows a page that had records and a non-empty next cursor, and uses
    that cursor; a page without records ends the loop; the loop ends only
    for one of these reasons; and the list returned is the fetched pages
    cut to [max_results], so it has at most [max_results] records. *)
Theorem C2_pagination (transport : Transport) (query : string)
  (year_from year_to : Z) (search_title search_abstract search_keyword : bool)
  (max_results : Z) :
  (forall n p, failed (transport n p) = false) ->
  exists r,
    search_openalex transport query year_from year_to
                    search_title search_abstract search_keyword max_results
    = Some r
    /\ (forall k e, nth_error (log r) k = Some e ->
          Z.of_nat (length (pages_of (firstn k (log r)))) < max_results
          /\ snd e = transport k (fst e))
    /\ (forall e, nth_error (log r) 0 = Some e ->
          OpenAlex.cursor (fst e) = "*"%string)
    /\ (forall k e e',
          nth_error (log r) k = Some e -> nth_error (log r) (S k) = Some e' ->
          page_of (snd e) <> []
          /\ cursor_of (snd e) = Some (OpenAlex.cursor (fst e')))
    /\ (forall k e,
          nth_error (log r) k = Some e -> page_of (snd e) = [] ->
          length (log r) = S k)
    /\ (log r = [] -> max_results <= 0)
    /\ (forall l e, log r = l ++ [e] ->
          page_of (snd e) = [] \/ cursor_of (snd e) = None
          \/ max_results <= Z.of_nat (length (pages_of (log r))))
    /\ records r = slice_to (pages_of (log r)) max_results
    /\ (0 <= max_results -> Z.of_nat (length (records r)) <= max_results).
Proof.
  intros Hok.
  destruct (search_openalex_run transport query year_from year_to search_title
              search_abstract search_keyword max_results)
    as [r [Hrun [Hpag [_ Hrec]]]].
  assert (Hnone : any_failed (log r) = false).
  { unfold any_failed. apply not_true_is_false. intros H.
    apply existsb_exists in H as [e [Hin He]].
    apply In_nth_error in Hin as [k Hk].
    destruct (pagination_request _ _ _ _ _ _ _ _ _ _ _ _ Hpag k e Hk) as [_ Heq].
    rewrite Heq, Hok in He. discriminate. }
  exists r. split; [exact Hrun|]. repeat apply conj.
  - intros k e Hk.
    now destruct (pagination_request _ _ _ _ _ _ _ _ _ _ _ _ Hpag k e Hk).
  - intros e He.
    rewrite (pagination_first _ _ _ _ _ _ _ _ _ _ _ _ Hpag e He).
    apply cursor_build_params.
  - intros k e e' Hk Hk'.
    now destruct (pagination_next _ _ _ _ _ _ _ _ _ _ _ _ Hpag k e e' Hk Hk')
      as [_ H].
  - apply (pagination_empty_page _ _ _ _ _ _ _ _ _ _ _ _ Hpag).
  - intros Hnil.
    destruct (pagination_last _ _ _ _ _ _ _ _ _ _ _ _ Hpag) as [H _].
    specialize (H Hnil). simpl in H. lia.
  - intros l e Hl.
    destruct (pagination_last _ _ _ _ _ _ _ _ _ _ _ _ Hpag) as [_ H].
    destruct (H l e Hl) as [H1|[H1|[H1|H1]]]; auto.
    + assert (exists k, nth_error (log r) k = Some e) as [k Hk].
      { apply In_nth_error. rewrite Hl. apply in_or_app. right. now left. }
      destruct (pagination_request _ _ _ _ _ _ _ _ _ _ _ _ Hpag k e Hk)
        as [_ Heq].
      rewrite Heq, Hok in H1. discriminate.
    + right. right. simpl in H1. lia.
  - now apply Hrec.
  - intros Hmax. rewrite (Hrec Hnone). now apply slice_to_length.
Qed.

Lemma C2_pagination_witness :
  exists r,
    search_openalex Examples.two_pages "team science" 2015 2025
                    true true false 3
    = Some r
    /\ records r = slice_to (pages_of (log r)) 3
    /\ Z.of_nat (length (records r)) <= 3.
Proof.
  destruct (C2_pagination Examples.two_pages "team science" 2015 2025
                          true true false 3)
    as [r [Hrun [_ [_ [_ [_ [_ [_ [Hrec Hlen]]]]]]]]].
  - intros [|[|n]] p; reflexivity.
  - exists r. split; [exact Hrun|]. split; [exact Hrec|]. apply Hlen. lia.
Defined.

Lemma pagination_requests transport query year_from year_to
  search_title search_abstract search_keyword max_results acc cursor i log :
  Pagination transport query year_from year_to
             search_title search_abstract search_keyword max_results
             acc cursor i log ->
  Forall (fun e => exists c,
              fst e = build_params query (base_filter_of year_from year_to) c
                                   search_title search_abstract search_keyword)
         log.
Proof.
  induction 1; repeat constructor; try (now eexists); assumption.
Qed.

(** C3: with the title flag alone the request has the title-scoped
    filter and no [search] parameter; with the abstract flag alone the
    abstract-scoped filter and no [search] parameter; in the six other
    combinations of the three flags it has the free-text [search]
    parameter and the year filter only. Every request of a search is built
    this way. *)
Theorem C3_scope_flags (query base_filter cursor : string) :
  let scoped field :=
    {| search := None;
       filter := (base_filter ++ "," ++ field ++ ".search:" ++ query)%string;
       per_page := 200; OpenAlex.cursor := cursor; select := SELECT |} in
  let combined :=
    {| search := Some query; filter := base_filter;
       per_page := 200; OpenAlex.cursor := cursor; select := SELECT |} in
  build_params query base_filter cursor true false false = scoped "title"%string
  /\ build_params query base_filter cursor false true false
     = scoped "abstract"%string
  /\ build_params query base_filter cursor true true false = combined
  /\ build_params query base_filter cursor true false true = combined
  /\ build_params query base_filter cursor false true true = combined
  /\ build_params query base_filter cursor true true true = combined
  /\ build_params query base_filter cursor false false true = combined
  /\ build_params query base_filter cursor false false false = combined
  /\ (forall transport year_from year_to title abstract concept max_results r,
        search_openalex transport query year_from year_to
                        title abstract concept max_results = Some r ->
        Forall (fun e => exists c,
                    fst e = build_params query
                                         (base_filter_of year_from year_to) c
                                         title abstract concept)
               (log r)).
Proof.
  intros scoped combined. repeat apply conj; try reflexivity.
  intros transport year_from year_to title abstract concept max_results r Hr.
  destruct (search_openalex_run transport query year_from year_to title
              abstract concept max_results) as [r' [Hrun [Hpag _]]].
  rewrite Hr in Hrun. injection Hrun as <-.
  eapply pagination_requests; exact Hpag.
Qed.

(** ** Ordered dictionaries *)

Section ODictFacts.
Context {V : Type}.
Implicit Types (d : list (string * V)) (k : string).

Lemma odict_get_set k k' v d :
  ODict.get k' (ODict.set k v d) = if String.eqb k k' then Some v else ODict.get k' d.
Proof.
  induction d as [|[k0 v0] t IH]; simpl.
  - rewrite (String.eqb_sym k' k). now destruct (String.eqb k k').
  - destruct (String.eqb k k0) eqn:E; simpl.
    + apply String.eqb_eq in E. subst k0. rewrite (String.eqb_sym k' k).
      now destruct (String.eqb k k').
    + destruct (String.eqb k' k0) eqn:E'.
      * apply String.eqb_eq in E'. subst k0. now rewrite E.
      * exact IH.
Qed.

Lemma odict_mem_In k d : ODict.mem k d = true <-> In k (ODict.keys d).
Proof.
  unfold ODict.mem. induction d as [|[k0 v0] t IH]; simpl.
  - split; [discriminate | tauto].
  - destruct (String.eqb k k0) eqn:E.
    + apply String.eqb_eq in E. subst. tauto.
    + apply String.eqb_neq in E. rewrite IH. split; [tauto|].
      intros [H|H]; [congruence | exact H].
Qed.

Lemma odict_mem_set k k' v d :
  ODict.mem k' (ODict.set k v d) = (String.eqb k k' || ODict.mem k' d)%bool.
Proof.
  unfold ODict.mem. rewrite odict_get_set. now destruct (String.eqb k k').
Qed.

Lemma odict_keys_set k v d :
  ODict.keys (ODict.set k v d)
  = if ODict.mem k d then ODict.keys d else ODict.keys d ++ [k].
Proof.
  unfold ODict.mem. induction d as [|[k0 v0] t IH]; simpl; [reflexivity|].
  destruct (String.eqb k k0) eqn:E; simpl.
  - apply String.eqb_eq in E. now subst.
  - rewrite IH. now destruct (ODict.get k t).
Qed.

Lemma odict_keys_set_NoDup k v d :
  NoDup (ODict.keys d) -> NoDup (ODict.keys (ODict.set k v d)).
Proof.
  intros H. rewrite odict_keys_set. destruct (ODict.mem k d) eqn:E; [exact H|].
  apply NoDup_app; [exact H | repeat constructor; auto |].
  intros x Hx [<-|[]]. apply odict_mem_In in Hx. congruence.
Qed.

Lemma odict_get_filter (f : string -> bool) k d :
  ODict.get k (List.filter (fun e => f (fst e)) d)
  = if f k then ODict.get k d else None.
Proof.
  induction d as [|[k0 v0] t IH]; simpl.
  - now destruct (f k).
  - destruct (String.eqb k k0) eqn:E.
    + apply String.eqb_eq in E. subst k0.
      destruct (f k) eqn:F; simpl.
      * now rewrite String.eqb_refl.
      * rewrite IH. try rewrite F. reflexivity.
    + destruct (f k0); simpl; [rewrite E|]; exact IH.
Qed.

Lemma odict_keys_filter (f : string -> bool) d :
  ODict.keys (List.filter (fun e => f (fst e)) d) = List.filter f (ODict.keys d).
Proof.
  induction d as [|[k0 v0] t IH]; simpl; [reflexivity|].
  destruct (f k0); simpl; now rewrite IH.
Qed.

Lemma odict_del_filter k d :
  NoDup (ODict.keys d) ->
  ODict.del k d = List.filter (fun e => negb (String.eqb k (fst e))) d.
Proof.
  induction d as [|[k0 v0] t IH]; simpl; [reflexivity|].
  intros H. inversion H as [|? ? Hnotin Hnd]; subst.
  destruct (String.eqb k k0) eqn:E; simpl.
  - apply String.eqb_eq in E. subst k0. symmetry.
    apply forallb_filter_id. apply forallb_forall. intros [k1 v1] Hin. simpl.
    apply negb_true_iff, String.eqb_neq. intros ->.
    apply Hnotin. now apply (in_map fst) in Hin.
  - now rewrite IH.
Qed.

End ODictFacts.

(** ** Co-authorship graph *)

Lemma has_node_In G n : Graph.has_node G n = true <-> In n (Graph.nodes G).
Proof. apply odict_mem_In. Qed.

Lemma adj_absent G n : Graph.has_node G n = false -> Graph.adj G n = [].
Proof.
  unfold Graph.has_node, ODict.mem, Graph.adj.
  now destruct (ODict.get n G).
Qed.

Lemma adj_add_node G n u : Graph.adj (Graph.add_node G n) u = Graph.adj G u.
Proof.
  unfold Graph.add_node. destruct (Graph.has_node G n) eqn:E; [reflexivity|].
  unfold Graph.adj at 1. rewrite odict_get_set.
  destruct (String.eqb n u) eqn:Enu; [|reflexivity].
  apply String.eqb_eq in Enu. subst u. symmetry. now apply adj_absent.
Qed.

Lemma nodes_add_node G n :
  Graph.nodes (Graph.add_node G n)
  = if Graph.has_node G n then Graph.nodes G else Graph.nodes G ++ [n].
Proof.
  unfold Graph.add_node, Graph.nodes, Graph.has_node.
  destruct (ODict.mem n G) eqn:E; [reflexivity|].
  now rewrite odict_keys_set, E.
Qed.

Lemma adj_set_adj G u v w u' :
  Graph.adj (Graph.set_adj G u v w) u'
  = if String.eqb u u' then ODict.set v w (Graph.adj G u) else Graph.adj G u'.
Proof.
  unfold Graph.set_adj. unfold Graph.adj at 1. rewrite odict_get_set.
  now destruct (String.eqb u u').
Qed.

Lemma nodes_set_adj G u v w :
  Graph.nodes (Graph.set_adj G u v w)
  = if Graph.has_node G u then Graph.nodes G else Graph.nodes G ++ [u].
Proof. unfold Graph.set_adj, Graph.nodes. apply odict_keys_set. Qed.

Lemma weight_set_adj G u v w u' v' :
  Graph.weight (Graph.set_adj G u v w) u' v'
  = if (String.eqb u u' && String.eqb v v')%bool then Some w
    else Graph.weight G u' v'.
Proof.
  unfold Graph.weight. rewrite adj_set_adj.
  destruct (String.eqb u u') eqn:E; simpl; [|reflexivity].
  apply String.eqb_eq in E. subst u'. apply odict_get_set.
Qed.

Lemma weight_add_node G n u v :
  Graph.weight (Graph.add_node G n) u v = Graph.weight G u v.
Proof. unfold Graph.weight. now rewrite adj_add_node. Qed.

Lemma weight_add_edge G a b w u v :
  Graph.weight (Graph.add_edge G a b w) u v
  = if Spec.is_pair a b u v then Some w else Graph.weight G u v.
Proof.
  unfold Graph.add_edge, Spec.is_pair. rewrite !weight_set_adj, !weight_add_node.
  destruct (String.eqb b u && String.eqb a v)%bool;
    destruct (String.eqb a u && String.eqb b v)%bool; reflexivity.
Qed.

(** What one pair of co-authors does to the weights. *)
Lemma weight_add_pair G a b u v :
  Graph.weight (add_pair G (a, b)) u v
  = if Spec.is_pair a b u v then Some (Spec.one_more (Graph.weight G a b))
    else Graph.weight G u v.
Proof.
  unfold add_pair. destruct (Graph.weight G a b) as [w|] eqn:E; simpl.
  - unfold Spec.is_pair. rewrite !weight_set_adj.
    destruct (String.eqb b u && String.eqb a v)%bool;
      destruct (String.eqb a u && String.eqb b v)%bool; reflexivity.
  - apply weight_add_edge.
Qed.

Lemma weight_add_nodes l : forall G u v,
  Graph.weight (fold_left Graph.add_node l G) u v = Graph.weight G u v.
Proof.
  induction l as [|n t IH]; intros G u v; simpl; [reflexivity|].
  now rewrite IH, weight_add_node.
Qed.

Lemma add_row_short G l :
  (length (slice_to l 5) < 2)%nat ->
  add_row G l = fold_left Graph.add_node (slice_to l 5) G.
Proof.
  intros H. unfold add_row.
  destruct (2 <=? length (slice_to l 5))%nat eqn:E; [|reflexivity].
  apply Nat.leb_le in E. lia.
Qed.

(** One step of the graph construction on an explicit adjacency, the
    comparisons of the names being among the hypotheses. *)
Ltac graph_step :=
  unfold add_pair, Graph.weight, Graph.adj; simpl;
  repeat match goal with
    | H : String.eqb _ _ = _ |- _ => rewrite H; simpl
    | |- _ => rewrite String.eqb_refl; simpl
    end;
  unfold Graph.add_edge, Graph.add_node, Graph.has_node, ODict.mem,
    Graph.set_adj, Graph.adj; simpl;
  repeat match goal with
    | H : String.eqb _ _ = _ |- _ => rewrite H; simpl
    | |- _ => rewrite String.eqb_refl; simpl
    end;
  reflexivity.

(** C6: a row with no or one kept author changes no edge; a row with
    the authors A, B, C gives each of the pairs (A,B), (A,C), (B,C) one
    more shared paper, in both orientations, and changes no other edge; on
    the empty graph that is exactly three edges of weight 1, and a second
    row with the same three authors brings all three weights to 2. *)
Theorem C6_coauthor_edges (G : Graph.t) (A B C : string) :
  A <> B -> A <> C -> B <> C ->
  (forall a u v,
      Graph.weight (add_row G []) u v = Graph.weight G u v
      /\ Graph.weight (add_row G [a]) u v = Graph.weight G u v)
  /\ (Graph.weight (add_row G [A; B; C]) A B = Some (Spec.one_more (Graph.weight G A B))
      /\ Graph.weight (add_row G [A; B; C]) B A = Some (Spec.one_more (Graph.weight G A B))
      /\ Graph.weight (add_row G [A; B; C]) A C = Some (Spec.one_more (Graph.weight G A C))
      /\ Graph.weight (add_row G [A; B; C]) C A = Some (Spec.one_more (Graph.weight G A C))
      /\ Graph.weight (add_row G [A; B; C]) B C = Some (Spec.one_more (Graph.weight G B C))
      /\ Graph.weight (add_row G [A; B; C]) C B = Some (Spec.one_more (Graph.weight G B C))
      /\ forall u v,
           Spec.is_pair A B u v = false -> Spec.is_pair A C u v = false ->
           Spec.is_pair B C u v = false ->
           Graph.weight (add_row G [A; B; C]) u v = Graph.weight G u v)
  /\ add_row Graph.empty [A; B; C]
     = [(A, [(B, 1); (C, 1)]); (B, [(A, 1); (C, 1)]); (C, [(A, 1); (B, 1)])]
  /\ add_row (add_row Graph.empty [A; B; C]) [A; B; C]
     = [(A, [(B, 2); (C, 2)]); (B, [(A, 2); (C, 2)]); (C, [(A, 2); (B, 2)])].
Proof.
  intros HAB HAC HBC.
  assert (EAB : String.eqb A B = false) by now apply String.eqb_neq.
  assert (EAC : String.eqb A C = false) by now apply String.eqb_neq.
  assert (EBC : String.eqb B C = false) by now apply String.eqb_neq.
  assert (EBA : String.eqb B A = false) by (apply String.eqb_neq; congruence).
  assert (ECA : String.eqb C A = false) by (apply String.eqb_neq; congruence).
  assert (ECB : String.eqb C B = false) by (apply String.eqb_neq; congruence).
  assert (Hw : forall u v,
             Graph.weight (add_row G [A; B; C]) u v
             = if Spec.is_pair B C u v
               then Some (Spec.one_more (Graph.weight G B C))
               else if Spec.is_pair A C u v
                    then Some (Spec.one_more (Graph.weight G A C))
                    else if Spec.is_pair A B u v
                         then Some (Spec.one_more (Graph.weight G A B))
                         else Graph.weight G u v).
  { intros u v.
    change (add_row G [A; B; C])
      with (add_pair
              (add_pair
                 (add_pair
                    (Graph.add_node (Graph.add_node (Graph.add_node G A) B) C)
                    (A, B)) (A, C)) (B, C)).
    rewrite !weight_add_pair, !weight_add_node.
    replace (Spec.is_pair A C B C) with false
      by (unfold Spec.is_pair;
          rewrite ?String.eqb_refl, ?EAB, ?EAC, ?EBC, ?EBA, ?ECA, ?ECB;
          reflexivity).
    replace (Spec.is_pair A B B C) with false
      by (unfold Spec.is_pair;
          rewrite ?String.eqb_refl, ?EAB, ?EAC, ?EBC, ?EBA, ?ECA, ?ECB;
          reflexivity).
    replace (Spec.is_pair A B A C) with false
      by (unfold Spec.is_pair;
          rewrite ?String.eqb_refl, ?EAB, ?EAC, ?EBC, ?EBA, ?ECA, ?ECB;
          reflexivity).
    rewrite ?weight_add_node. reflexivity. }
  pose (G0 := Graph.add_node (Graph.add_node (Graph.add_node Graph.empty A) B) C).
  assert (HG0 : G0 = [(A, []); (B, []); (C, [])]).
  { unfold G0, Graph.empty, Graph.add_node, Graph.has_node, ODict.mem.
    simpl. rewrite EBA. simpl. rewrite ECA, ECB. reflexivity. }
  assert (S1 : add_pair [(A, []); (B, []); (C, [])] (A, B)
               = [(A, [(B, 1)]); (B, [(A, 1)]); (C, [])]) by graph_step.
  assert (S2 : add_pair [(A, [(B, 1)]); (B, [(A, 1)]); (C, [])] (A, C)
               = [(A, [(B, 1); (C, 1)]); (B, [(A, 1)]); (C, [(A, 1)])])
    by graph_step.
  assert (S3 : add_pair [(A, [(B, 1); (C, 1)]); (B, [(A, 1)]); (C, [(A, 1)])]
                        (B, C)
               = [(A, [(B, 1); (C, 1)]); (B, [(A, 1); (C, 1)]);
                  (C, [(A, 1); (B, 1)])]) by graph_step.
  assert (HN : Graph.add_node
                 (Graph.add_node
                    (Graph.add_node
                       [(A, [(B, 1); (C, 1)]); (B, [(A, 1); (C, 1)]);
                        (C, [(A, 1); (B, 1)])] A) B) C
               = [(A, [(B, 1); (C, 1)]); (B, [(A, 1); (C, 1)]);
                  (C, [(A, 1); (B, 1)])]).
  { unfold Graph.add_node, Graph.has_node, ODict.mem. simpl.
    rewrite String.eqb_refl. simpl. rewrite EBA, String.eqb_refl. simpl.
    rewrite ECA, ECB, String.eqb_refl. reflexivity. }
  assert (S4 : add_pair [(A, [(B, 1); (C, 1)]); (B, [(A, 1); (C, 1)]);
                         (C, [(A, 1); (B, 1)])] (A, B)
               = [(A, [(B, 2); (C, 1)]); (B, [(A, 2); (C, 1)]);
                  (C, [(A, 1); (B, 1)])]) by graph_step.
  assert (S5 : add_pair [(A, [(B, 2); (C, 1)]); (B, [(A, 2); (C, 1)]);
                         (C, [(A, 1); (B, 1)])] (A, C)
               = [(A, [(B, 2); (C, 2)]); (B, [(A, 2); (C, 1)]);
                  (C, [(A, 2); (B, 1)])]) by graph_step.
  assert (S6 : add_pair [(A, [(B, 2); (C, 2)]); (B, [(A, 2); (C, 1)]);
                         (C, [(A, 2); (B, 1)])] (B, C)
               = [(A, [(B, 2); (C, 2)]); (B, [(A, 2); (C, 2)]);
                  (C, [(A, 2); (B, 2)])]) by graph_step.
  split; [|split; [|split]].
  - intros a u v. split.
    + reflexivity.
    + rewrite add_row_short by (simpl; lia). simpl. apply weight_add_node.
  - repeat apply conj; try (intros u v H1 H2 H3); rewrite Hw; unfold Spec.is_pair in *;
      rewrite ?String.eqb_refl, ?EAB, ?EAC, ?EBC, ?EBA, ?ECA, ?ECB; simpl;
      try reflexivity.
    now rewrite H1, H2, H3.
  - change (add_row Graph.empty [A; B; C])
      with (add_pair (add_pair (add_pair G0 (A, B)) (A, C)) (B, C)).
    now rewrite HG0, S1, S2, S3.
  - change (add_row (add_row Graph.empty [A; B; C]) [A; B; C])
      with (add_pair
              (add_pair
                 (add_pair
                    (Graph.add_node
                       (Graph.add_node
                          (Graph.add_node
                             (add_pair (add_pair (add_pair G0 (A, B)) (A, C))
                                       (B, C)) A) B) C)
                    (A, B)) (A, C)) (B, C)).
    now rewrite HG0, S1, S2, S3, HN, S4, S5, S6.
Qed.

Lemma C6_coauthor_edges_witness :
  add_row Graph.empty ["A"; "B"; "C"]%string
  = [("A", [("B", 1); ("C", 1)]); ("B", [("A", 1); ("C", 1)]);
     ("C", [("A", 1); ("B", 1)])]%string
  /\ add_row (add_row Graph.empty ["A"; "B"; "C"]%string) ["A"; "B"; "C"]%string
     = [("A", [("B", 2); ("C", 2)]); ("B", [("A", 2); ("C", 2)]);
        ("C", [("A", 2); ("B", 2)])]%string.
Proof.
  refine (proj2 (proj2 (C6_coauthor_edges Graph.empty "A" "B" "C" _ _ _)));
    discriminate.
Defined.

(** *** The weights are at least 1 *)

Lemma fold_left_invariant {A B} (P : A -> Prop) (Q : B -> Prop)
  (f : A -> B -> A) :
  (forall a b, P a -> Q b -> P (f a b)) ->
  forall l a, P a -> Forall Q l -> P (fold_left f l a).
Proof.
  intros Hstep. induction l as [|b t IH]; intros a Ha Hl; simpl; [exact Ha|].
  inversion Hl; subst. apply IH; auto.
Qed.

Lemma positive_add_node G n :
  Spec.weights_at_least_1 G -> Spec.weights_at_least_1 (Graph.add_node G n).
Proof. intros H u v w. rewrite weight_add_node. apply H. Qed.

Lemma positive_add_pair G p :
  Spec.weights_at_least_1 G -> Spec.weights_at_least_1 (add_pair G p).
Proof.
  destruct p as [a b]. intros H u v w. rewrite weight_add_pair.
  destruct (Spec.is_pair a b u v); [|apply H].
  intros Hw. injection Hw as <-. unfold Spec.one_more.
  destruct (Graph.weight G a b) as [w0|] eqn:E; [|lia].
  specialize (H a b w0 E). lia.
Qed.

Lemma positive_add_row G l :
  Spec.weights_at_least_1 G -> Spec.weights_at_least_1 (add_row G l).
Proof.
  intros H. unfold add_row.
  assert (H' : Spec.weights_at_least_1
                 (fold_left Graph.add_node (slice_to l 5) G)).
  { apply (fold_left_invariant _ (fun _ => True)); auto.
    - intros a b Ha _. now apply positive_add_node.
    - apply Forall_forall. auto. }
  destruct (2 <=? length (slice_to l 5))%nat; [|exact H'].
  apply (fold_left_invariant _ (fun _ => True)); auto.
  - intros a b Ha _. now apply positive_add_pair.
  - apply Forall_forall. auto.
Qed.

Lemma positive_coauthor_graph df : Spec.weights_at_least_1 (coauthor_graph df).
Proof.
  unfold coauthor_graph.
  apply (fold_left_invariant _ (fun _ => True)).
  - intros a b Ha _. now apply positive_add_row.
  - intros u v w H. discriminate H.
  - apply Forall_forall. auto.
Qed.

(** *** No self-loop when the authors of a row are distinct *)

Lemma combinations2_In {A} (l : list A) a b :
  In (a, b) (combinations2 l) -> In a l /\ In b l.
Proof.
  induction l as [|x t IH]; simpl; [tauto|].
  intros H. apply in_app_or in H as [H|H].
  - apply in_map_iff in H as [y [Hy Hin]]. injection Hy as <- <-. auto.
  - destruct (IH H). auto.
Qed.

Lemma combinations2_distinct {A} (l : list A) :
  NoDup l -> Forall (fun p => fst p <> snd p) (combinations2 l).
Proof.
  induction 1 as [|x t Hx Hnd IH]; simpl; [constructor|].
  apply Forall_app. split; [|exact IH].
  apply Forall_forall. intros [a b] H.
  apply in_map_iff in H as [y [Hy Hin]]. injection Hy as <- <-. simpl.
  intros ->. contradiction.
Qed.

Lemma is_pair_diagonal a b u : a <> b -> Spec.is_pair a b u u = false.
Proof.
  intros Hab. unfold Spec.is_pair.
  destruct (String.eqb a u) eqn:Ea; destruct (String.eqb b u) eqn:Eb;
    try reflexivity.
  apply String.eqb_eq in Ea, Eb. congruence.
Qed.

Lemma loopless_add_pair G p :
  Spec.no_self_loops G -> fst p <> snd p -> Spec.no_self_loops (add_pair G p).
Proof.
  destruct p as [a b]. cbn [fst snd]. intros H Hab u.
  rewrite weight_add_pair, is_pair_diagonal by assumption. apply H.
Qed.

Lemma loopless_add_row G l :
  Spec.no_self_loops G -> NoDup (firstn 5 l) -> Spec.no_self_loops (add_row G l).
Proof.
  intros H Hnd. unfold add_row. change (slice_to l 5) with (firstn 5 l).
  assert (H' : Spec.no_self_loops (fold_left Graph.add_node (firstn 5 l) G)).
  { intros u. rewrite weight_add_nodes. apply H. }
  destruct (2 <=? length (firstn 5 l))%nat; [|exact H'].
  apply (fold_left_invariant _ (fun p => fst p <> snd p)); auto.
  - intros a b. apply loopless_add_pair.
  - now apply combinations2_distinct.
Qed.

Lemma loopless_coauthor_graph df :
  Forall Spec.distinct_authors df -> Spec.no_self_loops (coauthor_graph df).
Proof.
  intros H. unfold coauthor_graph.
  apply (fold_left_invariant _ (fun l => NoDup (firstn 5 l))).
  - intros a b. apply loopless_add_row.
  - intros u. reflexivity.
  - apply Forall_map. exact H.
Qed.

(** *** The graph stays well formed *)

Lemma has_edge_weight G u v :
  Graph.has_edge G u v
  = match Graph.weight G u v with Some _ => true | None => false end.
Proof. reflexivity. Qed.

Lemma has_edge_add_pair G a b u v :
  Graph.has_edge (add_pair G (a, b)) u v
  = (Spec.is_pair a b u v || Graph.has_edge G u v)%bool.
Proof.
  rewrite !has_edge_weight, weight_add_pair.
  now destruct (Spec.is_pair a b u v).
Qed.

Lemma is_pair_sym a b u v : Spec.is_pair a b u v = Spec.is_pair a b v u.
Proof.
  unfold Spec.is_pair. rewrite orb_comm.
  f_equal; apply andb_comm.
Qed.

Lemma is_pair_true a b u v :
  Spec.is_pair a b u v = true -> (u = a /\ v = b) \/ (u = b /\ v = a).
Proof.
  unfold Spec.is_pair. intros H.
  apply orb_true_iff in H as [H|H]; apply andb_true_iff in H as [H1 H2];
    apply String.eqb_eq in H1, H2; auto.
Qed.

Lemma nodes_add_node_In G n x :
  In x (Graph.nodes (Graph.add_node G n)) <-> x = n \/ In x (Graph.nodes G).
Proof.
  rewrite nodes_add_node. destruct (Graph.has_node G n) eqn:E.
  - apply has_node_In in E. split; [auto | intros [->|H]; auto].
  - rewrite in_app_iff. simpl. split; intros H; intuition auto.
Qed.

Lemma nodes_set_adj_In G u v w x :
  In x (Graph.nodes (Graph.set_adj G u v w)) <-> x = u \/ In x (Graph.nodes G).
Proof.
  rewrite nodes_set_adj. destruct (Graph.has_node G u) eqn:E.
  - apply has_node_In in E. split; [auto | intros [->|H]; auto].
  - rewrite in_app_iff. simpl. split; intros H; intuition auto.
Qed.

Lemma nodes_add_node_NoDup G n :
  NoDup (Graph.nodes G) -> NoDup (Graph.nodes (Graph.add_node G n)).
Proof.
  intros H. unfold Graph.add_node.
  destruct (Graph.has_node G n); [exact H|].
  now apply odict_keys_set_NoDup.
Qed.

Lemma nodes_set_adj_NoDup G u v w :
  NoDup (Graph.nodes G) -> NoDup (Graph.nodes (Graph.set_adj G u v w)).
Proof. apply odict_keys_set_NoDup. Qed.

Lemma adj_set_adj_NoDup G u v w :
  (forall x, NoDup (ODict.keys (Graph.adj G x))) ->
  forall x, NoDup (ODict.keys (Graph.adj (Graph.set_adj G u v w) x)).
Proof.
  intros H x. rewrite adj_set_adj. destruct (String.eqb u x); [|apply H].
  apply odict_keys_set_NoDup, H.
Qed.

Lemma adj_add_node_NoDup G n :
  (forall x, NoDup (ODict.keys (Graph.adj G x))) ->
  forall x, NoDup (ODict.keys (Graph.adj (Graph.add_node G n) x)).
Proof. intros H x. rewrite adj_add_node. apply H. Qed.

Lemma nodes_add_pair_In G a b x :
  x = a \/ x = b \/ In x (Graph.nodes G) ->
  In x (Graph.nodes (add_pair G (a, b))).
Proof.
  intros H. unfold add_pair, Graph.add_edge.
  destruct (Graph.weight G a b);
    rewrite !nodes_set_adj_In, ?nodes_add_node_In; intuition auto.
Qed.

Lemma well_formed_empty : Spec.well_formed Graph.empty.
Proof.
  split; simpl; try constructor; intros; discriminate.
Qed.

Lemma well_formed_add_node G n :
  Spec.well_formed G -> Spec.well_formed (Graph.add_node G n).
Proof.
  intros [Hn Ha Hc Hs]. split.
  - now apply nodes_add_node_NoDup.
  - now apply adj_add_node_NoDup.
  - intros u v. unfold Graph.has_edge. rewrite adj_add_node. intros H.
    apply nodes_add_node_In. right. now apply (Hc u v).
  - intros u v. unfold Graph.has_edge. rewrite !adj_add_node. apply Hs.
Qed.

Lemma well_formed_add_pair G p :
  Spec.well_formed G -> Spec.well_formed (add_pair G p).
Proof.
  destruct p as [a b]. intros [Hn Ha Hc Hs]. split.
  - unfold add_pair, Graph.add_edge. destruct (Graph.weight G a b);
      repeat first [apply nodes_set_adj_NoDup | apply nodes_add_node_NoDup];
      exact Hn.
  - unfold add_pair, Graph.add_edge. destruct (Graph.weight G a b);
      repeat first [apply adj_set_adj_NoDup | apply adj_add_node_NoDup];
      exact Ha.
  - intros u v. rewrite has_edge_add_pair. intros H.
    apply nodes_add_pair_In. apply orb_true_iff in H as [H|H].
    + apply is_pair_true in H. intuition auto.
    + right. right. now apply (Hc u v).
  - intros u v. rewrite !has_edge_add_pair, is_pair_sym. intros H.
    apply orb_true_iff in H as [H|H]; apply orb_true_iff; auto.
Qed.

Lemma well_formed_add_row G l :
  Spec.well_formed G -> Spec.well_formed (add_row G l).
Proof.
  intros H. unfold add_row.
  assert (H' : Spec.well_formed (fold_left Graph.add_node (slice_to l 5) G)).
  { apply (fold_left_invariant _ (fun _ => True)); auto.
    - intros a b Ha _. now apply well_formed_add_node.
    - apply Forall_forall. auto. }
  destruct (2 <=? length (slice_to l 5))%nat; [|exact H'].
  apply (fold_left_invariant _ (fun _ => True)); auto.
  - intros a b Ha _. now apply well_formed_add_pair.
  - apply Forall_forall. auto.
Qed.

Lemma well_formed_coauthor_graph df : Spec.well_formed (coauthor_graph df).
Proof.
  unfold coauthor_graph.
  apply (fold_left_invariant _ (fun _ => True)).
  - intros a b Ha _. now apply well_formed_add_row.
  - apply well_formed_empty.
  - apply Forall_forall. auto.
Qed.

(** *** Pruning the isolated nodes *)

Lemma member_In v l : Centrality.member v l = true <-> In v l.
Proof.
  unfold Centrality.member. rewrite existsb_exists. split.
  - intros [x [Hin Hx]]. apply String.eqb_eq in Hx. now subst.
  - intros H. exists v. split; [exact H | apply String.eqb_refl].
Qed.

Lemma degree_zero G n : Graph.degree G n = 0 <-> Graph.adj G n = [].
Proof.
  unfold Graph.degree. split.
  - intros H. destruct (Graph.adj G n) as [|e t]; [reflexivity|].
    simpl length in H. destruct (ODict.mem n (e :: t)); lia.
  - intros ->. reflexivity.
Qed.

Lemma isolates_In G n :
  In n (Graph.isolates G) <-> In n (Graph.nodes G) /\ Graph.adj G n = [].
Proof.
  unfold Graph.isolates. rewrite filter_In, Z.eqb_eq, degree_zero. tauto.
Qed.

Lemma odict_del_absent {V} k (d : list (string * V)) :
  ODict.get k d = None -> ODict.del k d = d.
Proof.
  induction d as [|[k0 v0] t IH]; simpl; [reflexivity|].
  destruct (String.eqb k k0); [discriminate|]. intros H. now rewrite IH.
Qed.

Lemma remove_node_bare G n :
  Graph.adj G n = [] -> Graph.remove_node G n = ODict.del n G.
Proof.
  unfold Graph.adj, Graph.remove_node. intros H.
  destruct (ODict.get n G) as [nbrs|] eqn:E.
  - subst nbrs. reflexivity.
  - symmetry. now apply odict_del_absent.
Qed.

Lemma filter_twice {A} (f g : A -> bool) l :
  List.filter f (List.filter g l) = List.filter (fun x => (g x && f x)%bool) l.
Proof.
  induction l as [|x t IH]; simpl; [reflexivity|].
  destruct (g x); simpl; [destruct (f x)|]; now rewrite IH.
Qed.

Lemma remove_bare_nodes ns : forall G,
  NoDup (Graph.nodes G) ->
  (forall n, In n ns -> Graph.adj G n = []) ->
  Graph.remove_nodes_from G ns = List.filter (kept ns) G.
Proof.
  induction ns as [|n ns IH]; intros G Hnd Hbare; simpl.
  - symmetry. apply forallb_filter_id. now apply forallb_forall.
  - rewrite remove_node_bare by (apply Hbare; now left).
    rewrite odict_del_filter by exact Hnd.
    rewrite IH.
    + rewrite filter_twice. apply filter_ext. intros [k nbrs].
      unfold kept. simpl. now rewrite (String.eqb_sym k n), negb_orb.
    + unfold Graph.nodes.
      rewrite (odict_keys_filter (fun k => negb (String.eqb n k))).
      now apply NoDup_filter.
    + intros m Hm. unfold Graph.adj.
      rewrite (odict_get_filter (fun k => negb (String.eqb n k))).
      destruct (negb (String.eqb n m)); [|reflexivity].
      now apply Hbare; right.
Qed.

Section Pruned.
Variable G : Graph.t.
Hypothesis Hwf : Spec.well_formed G.

Let P := Graph.remove_nodes_from G (Graph.isolates G).

Lemma pruned_filter : P = List.filter (kept (Graph.isolates G)) G.
Proof.
  apply remove_bare_nodes; [apply Hwf|].
  intros n Hn. now apply isolates_In in Hn.
Qed.

Lemma adj_pruned u : Graph.adj P u = Graph.adj G u.
Proof.
  rewrite pruned_filter. unfold Graph.adj, kept.
  rewrite (odict_get_filter
             (fun k => negb (Centrality.member k (Graph.isolates G)))).
  destruct (Centrality.member u (Graph.isolates G)) eqn:E; simpl; [|reflexivity].
  apply member_In, isolates_In in E as [_ E]. unfold Graph.adj in E.
  now rewrite E.
Qed.

Lemma weight_pruned u v : Graph.weight P u v = Graph.weight G u v.
Proof. unfold Graph.weight. now rewrite adj_pruned. Qed.

Lemma nodes_pruned_In u :
  In u (Graph.nodes P) <-> In u (Graph.nodes G) /\ Graph.adj G u <> [].
Proof.
  rewrite pruned_filter. unfold Graph.nodes, kept.
  rewrite (odict_keys_filter
             (fun k => negb (Centrality.member k (Graph.isolates G)))).
  rewrite filter_In, negb_true_iff. split; intros [Hin H]; split; auto.
  - intros Hadj. apply not_true_iff_false in H. apply H.
    apply member_In, isolates_In. auto.
  - apply not_true_iff_false. intros Hm.
    apply member_In, isolates_In in Hm. tauto.
Qed.

Lemma well_formed_pruned : Spec.well_formed P.
Proof.
  destruct Hwf as [Hn Ha Hc Hs]. split.
  - rewrite pruned_filter. unfold Graph.nodes, kept.
    rewrite (odict_keys_filter
               (fun k => negb (Centrality.member k (Graph.isolates G)))).
    now apply NoDup_filter.
  - intros u. rewrite adj_pruned. apply Ha.
  - intros u v. unfold Graph.has_edge. rewrite adj_pruned. intros H.
    apply nodes_pruned_In. split; [now apply (Hc u v)|].
    apply Hs in H. unfold Graph.has_edge, ODict.mem in H.
    intros Hnil. rewrite Hnil in H. discriminate.
  - intros u v. unfold Graph.has_edge. rewrite !adj_pruned. apply Hs.
Qed.

End Pruned.

(** C7 (as amended): for every table, every edge of the co-authorship
    graph has an integer weight of at least 1, before and after the
    isolated nodes are pruned; and when no row lists a name twice among
    its first five authors, the graph has no self-loop, before and after
    pruning. *)
Theorem C7_graph_invariant (df : list Row.t) :
  Spec.weights_at_least_1 (coauthor_graph df)
  /\ Spec.weights_at_least_1 (pruned_graph df)
  /\ (Forall Spec.distinct_authors df ->
      Spec.no_self_loops (coauthor_graph df)
      /\ Spec.no_self_loops (pruned_graph df)).
Proof.
  pose proof (well_formed_coauthor_graph df) as Hwf.
  pose proof (positive_coauthor_graph df) as Hpos.
  split; [exact Hpos|]. split.
  - intros u v w. unfold pruned_graph. rewrite weight_pruned by exact Hwf.
    apply Hpos.
  - intros Hdistinct. pose proof (loopless_coauthor_graph df Hdistinct) as Hl.
    split; [exact Hl|].
    intros u. unfold pruned_graph. rewrite weight_pruned by exact Hwf.
    apply Hl.
Qed.

(** C7 as stated fails: a row that lists the same name twice among its
    first five authors puts a self-loop on that name, and pruning keeps
    it. *)
Lemma C7_graph_invariant_counterexample :
  Graph.weight (coauthor_graph [Examples.row_of ["A"; "A"]%string]) "A" "A"
  = Some 1
  /\ ~ Spec.no_self_loops (coauthor_graph [Examples.row_of ["A"; "A"]%string])
  /\ ~ Spec.no_self_loops (pruned_graph [Examples.row_of ["A"; "A"]%string]).
Proof.
  split; [reflexivity|].
  split; intros H; specialize (H "A"%string); discriminate H.
Qed.

(** ** Centrality *)

Section Rationals.
Local Open Scope Q_scope.

Lemma Qfrac_bounds (x : Q) (m : Z) :
  (1 <= m)%Z -> 0 <= x -> x <= inject_Z m ->
  0 <= x / inject_Z m /\ x / inject_Z m <= 1.
Proof.
  intros Hm H0 H1.
  assert (Hpos : 0 < inject_Z m).
  { change 0 with (inject_Z 0). rewrite <- Zlt_Qlt. lia. }
  split.
  - apply Qle_shift_div_l; [exact Hpos|]. now rewrite Qmult_0_l.
  - apply Qle_shift_div_r; [exact Hpos|]. now rewrite Qmult_1_l.
Qed.

Lemma Qscale_div (x y : Q) : x * (1 / y) == x / y.
Proof. unfold Qdiv. now rewrite Qmult_1_l. Qed.

Lemma Qsum_bounds {A} (f : A -> Q) (c : Q) l :
  (forall x, In x l -> 0 <= f x /\ f x <= c) ->
  0 <= Centrality.Qsum (map f l)
  /\ Centrality.Qsum (map f l) <= inject_Z (Z.of_nat (length l)) * c.
Proof.
  induction l as [|a t IH]; intros H.
  - simpl. split; [apply Qle_refl|]. rewrite Qmult_0_l. apply Qle_refl.
  - destruct IH as [IH0 IH1]; [intros x Hx; apply H; now right|].
    destruct (H a (or_introl eq_refl)) as [Ha0 Ha1].
    change (Centrality.Qsum (map f (a :: t)))
      with (f a + Centrality.Qsum (map f t)).
    split.
    + replace 0 with (0 + 0) by reflexivity. now apply Qplus_le_compat.
    + replace (Z.of_nat (length (a :: t))) with (1 + Z.of_nat (length t))%Z
        by (simpl length; lia).
      rewrite inject_Z_plus, Qmult_plus_distr_l, Qmult_1_l.
      now apply Qplus_le_compat.
Qed.

(** The order of [sorted(..., reverse=True)]. *)
Lemma sorted_desc_sorted items :
  StronglySorted (fun a b : string * Q => snd b <= snd a)
                 (Centrality.sorted_desc items).
Proof.
  unfold Centrality.sorted_desc.
  eapply StronglySorted_impl;
    [|apply (sort_sorted (fun a b : Q => Qle_bool b a) snd)].
  - intros a b H. now apply Qle_bool_iff.
  - intros a b H. apply Qle_bool_iff. apply Qlt_le_weak, Qnot_le_lt.
    intros Hle. apply Qle_bool_iff in Hle. congruence.
  - intros a b c H1 H2. apply Qle_bool_iff in H1, H2. apply Qle_bool_iff.
    eapply Qle_trans; eauto.
Qed.

Lemma sorted_desc_perm items : Permutation items (Centrality.sorted_desc items).
Proof. apply sort_perm. Qed.

(** What holds of every score holds of the top five. *)
Lemma top5_Forall (P : string * Q -> Prop) items :
  Forall P items -> Forall P (slice_to (Centrality.sorted_desc items) 5).
Proof.
  intros H. apply Forall_forall. intros x Hx.
  change (slice_to (Centrality.sorted_desc items) 5)
    with (firstn 5 (Centrality.sorted_desc items)) in Hx.
  apply In_firstn in Hx.
  eapply Permutation_in in Hx; [|apply Permutation_sym, sorted_desc_perm].
  revert x Hx. now apply Forall_forall.
Qed.

Lemma top5_sorted items :
  StronglySorted (fun a b : string * Q => snd b <= snd a)
                 (slice_to (Centrality.sorted_desc items) 5)
  /\ (length (slice_to (Centrality.sorted_desc items) 5) <= 5)%nat.
Proof.
  change (slice_to (Centrality.sorted_desc items) 5)
    with (firstn 5 (Centrality.sorted_desc items)).
  split.
  - apply StronglySorted_firstn, sorted_desc_sorted.
  - rewrite length_firstn. lia.
Qed.

End Rationals.

(** *** Degree centrality *)

Lemma keys_length {V} (d : list (string * V)) : length (ODict.keys d) = length d.
Proof. apply length_map. Qed.

(** In a well-formed graph without self-loops a node has at most [n - 1]
    neighbours. *)
Lemma degree_bound G v :
  Spec.well_formed G -> Spec.no_self_loops G -> In v (Graph.nodes G) ->
  0 <= Graph.degree G v <= Z.of_nat (length (Graph.nodes G)) - 1.
Proof.
  intros [Hn Ha Hc Hs] Hloop Hv. unfold Graph.degree.
  assert (Hself : ODict.mem v (Graph.adj G v) = false).
  { specialize (Hloop v). unfold Graph.weight in Hloop. unfold ODict.mem.
    now rewrite Hloop. }
  rewrite Hself, <- keys_length.
  assert (Hle : (length (v :: ODict.keys (Graph.adj G v))
                 <= length (Graph.nodes G))%nat).
  { apply NoDup_incl_length.
    - constructor; [|apply Ha].
      intros Hin. apply odict_mem_In in Hin. congruence.
    - intros x [<-|Hx]; [exact Hv|].
      apply (Hc v x). now apply odict_mem_In. }
  simpl length in Hle. lia.
Qed.

Lemma degree_centrality_bounds G :
  Spec.well_formed G -> Spec.no_self_loops G ->
  Forall (fun item => (0 <= snd item /\ snd item <= 1)%Q)
         (Centrality.degree_centrality G).
Proof.
  intros Hwf Hloop. unfold Centrality.degree_centrality.
  destruct (Z.of_nat (length (Graph.nodes G)) <=? 1) eqn:E;
    apply Forall_map, Forall_forall; intros v Hv; simpl.
  - split; discriminate.
  - apply Z.leb_gt in E.
    destruct (degree_bound G v Hwf Hloop Hv) as [H0 H1].
    rewrite Qscale_div. apply Qfrac_bounds; [lia | |].
    + change 0%Q with (inject_Z 0). now rewrite <- Zle_Qle.
    + now rewrite <- Zle_Qle.
Qed.

(** *** Betweenness centrality *)

Lemma pair_dependency_bounds G v s t :
  (0 <= Centrality.pair_dependency G v s t
   /\ Centrality.pair_dependency G v s t <= 1)%Q.
Proof.
  unfold Centrality.pair_dependency.
  destruct (Centrality.shortest_paths G s t) as [|p ps] eqn:E.
  - split; discriminate.
  - apply Qfrac_bounds.
    + simpl length. lia.
    + change 0%Q with (inject_Z 0). rewrite <- Zle_Qle. lia.
    + rewrite <- Zle_Qle. apply inj_le, filter_length_le.
Qed.

Lemma others_length v l :
  NoDup l -> In v l ->
  S (length (List.filter (Centrality.differs v) l)) = length l.
Proof.
  unfold Centrality.differs.
  induction 1 as [|x t Hx Hnd IH]; simpl; [tauto|].
  intros [->|Hin].
  - rewrite String.eqb_refl. simpl. f_equal.
    f_equal. apply forallb_filter_id, forallb_forall. intros y Hy.
    apply negb_true_iff, String.eqb_neq. intros ->. contradiction.
  - destruct (String.eqb x v) eqn:E.
    + apply String.eqb_eq in E. subst. contradiction.
    + simpl. f_equal. now apply IH.
Qed.

(** The sum runs over [(n - 1)(n - 2)] ordered pairs, each at most 1. *)
Lemma betweenness_sum_bounds G v :
  NoDup (Graph.nodes G) -> In v (Graph.nodes G) ->
  let n := Z.of_nat (length (Graph.nodes G)) in
  (0 <= Centrality.betweenness_sum G v
   /\ Centrality.betweenness_sum G v <= inject_Z ((n - 1) * (n - 2)))%Q.
Proof.
  intros Hnd Hv n. unfold Centrality.betweenness_sum.
  set (others := List.filter (Centrality.differs v) (Graph.nodes G)).
  assert (Hlen : Z.of_nat (length others) = n - 1).
  { pose proof (others_length v _ Hnd Hv). subst others n. lia. }
  assert (Hnd' : NoDup others) by now apply NoDup_filter.
  destruct (Qsum_bounds
              (fun s => Centrality.Qsum
                          (map (Centrality.pair_dependency G v s)
                               (List.filter (Centrality.differs s) others)))
              (inject_Z (n - 2)) others) as [H0 H1].
  - intros s Hs.
    destruct (Qsum_bounds (Centrality.pair_dependency G v s) 1%Q
                (List.filter (Centrality.differs s) others)) as [A0 A1].
    + intros t _. apply pair_dependency_bounds.
    + split; [exact A0|]. rewrite Qmult_1_r in A1.
      pose proof (others_length s _ Hnd' Hs) as Hs'.
      replace (n - 2) with
        (Z.of_nat (length (List.filter (Centrality.differs s) others)))
        by lia.
      exact A1.
  - split; [exact H0|].
    rewrite Hlen, <- inject_Z_mult in H1. exact H1.
Qed.

Lemma betweenness_centrality_bounds G :
  NoDup (Graph.nodes G) ->
  Forall (fun item => (0 <= snd item /\ snd item <= 1)%Q)
         (Centrality.betweenness_centrality G).
Proof.
  intros Hnd. unfold Centrality.betweenness_centrality.
  apply Forall_map, Forall_forall. intros v Hv. simpl.
  destruct (betweenness_sum_bounds G v Hnd Hv) as [H0 H1].
  assert (Hn : 1 <= Z.of_nat (length (Graph.nodes G))).
  { destruct (Graph.nodes G); [destruct Hv | simpl length; lia]. }
  destruct (Z.of_nat (length (Graph.nodes G)) <=? 2) eqn:E.
  - apply Z.leb_le in E. split; [exact H0|].
    eapply Qle_trans; [exact H1|].
    change 1%Q with (inject_Z 1). rewrite <- Zle_Qle. nia.
  - apply Z.leb_gt in E. rewrite Qscale_div.
    apply Qfrac_bounds; [nia | exact H0 | exact H1].
Qed.

(** C8 (as amended): when fewer than two nodes are left after pruning,
    both top-5 lists are empty; otherwise each is the first five of the
    scores sorted by descending score. Either way each list is sorted
    descending and has at most five entries, every betweenness score is in
    [0,1], and every degree score is in [0,1] when no row lists a name
    twice among its first five authors. *)
Theorem C8_centrality_scores (df : list Row.t) :
  let G := pruned_graph df in
  let top := calculate_author_centrality df in
  ((length (Graph.nodes G) < 2)%nat -> top = ([], []))
  /\ ((2 <= length (Graph.nodes G))%nat ->
      fst top
      = firstn 5 (Centrality.sorted_desc (Centrality.degree_centrality G))
      /\ snd top
         = firstn 5 (Centrality.sorted_desc
                       (Centrality.betweenness_centrality G)))
  /\ StronglySorted descending (fst top) /\ (length (fst top) <= 5)%nat
  /\ StronglySorted descending (snd top) /\ (length (snd top) <= 5)%nat
  /\ Forall unit_score (snd top)
  /\ (Forall Spec.distinct_authors df -> Forall unit_score (fst top)).
Proof.
  intros G top.
  pose proof (well_formed_coauthor_graph df) as Hwf.
  assert (HwfG : Spec.well_formed G)
    by (apply well_formed_pruned; exact Hwf).
  subst top. unfold calculate_author_centrality. fold G.
  destruct (length (Graph.nodes G) <? 2)%nat eqn:E.
  - apply Nat.ltb_lt in E. simpl.
    repeat apply conj; try constructor; try (intros; lia); auto.
  - apply Nat.ltb_ge in E. simpl fst. simpl snd.
    destruct (top5_sorted (Centrality.degree_centrality G)) as [Hd1 Hd2].
    destruct (top5_sorted (Centrality.betweenness_centrality G)) as [Hb1 Hb2].
    repeat apply conj; auto.
    + intros H. lia.
    + apply top5_Forall, betweenness_centrality_bounds, HwfG.
    + intros Hdistinct. apply top5_Forall, degree_centrality_bounds; [exact HwfG|].
      intros u. unfold G, pruned_graph. rewrite weight_pruned by exact Hwf.
      now apply loopless_coauthor_graph.
Qed.

(** The scores of a small table: C works with everyone. *)
Example centrality_of_four_rows :
  calculate_author_centrality
    [Examples.row_of ["A"; "B"; "C"]; Examples.row_of ["A"; "B"; "C"];
     Examples.row_of ["D"]; Examples.row_of ["C"; "E"]]%string
  = ([("C", 3 # 3); ("A", 2 # 3); ("B", 2 # 3); ("E", 1 # 3)],
     [("C", 4 # 6); ("A", 0 # 6); ("B", 0 # 6); ("E", 0 # 6)])%string%Q.
Proof. vm_compute. reflexivity. Qed.

(** C8 as stated fails: a name listed twice in a row gets a self-loop,
    which networkx counts twice in the degree; with one co-author the
    degree score of that name is 3. *)
Lemma C8_centrality_counterexample :
  fst (calculate_author_centrality [Examples.row_of ["A"; "A"; "B"]%string])
  = [("A", 3 # 1); ("B", 1 # 1)]%string%Q
  /\ ~ Forall unit_score
       (fst (calculate_author_centrality
               [Examples.row_of ["A"; "A"; "B"]%string])).
Proof.
  assert (E : fst (calculate_author_centrality
                     [Examples.row_of ["A"; "A"; "B"]%string])
              = [("A", 3 # 1); ("B", 1 # 1)]%string%Q)
    by (vm_compute; reflexivity).
  split; [exact E|]. rewrite E.
  intros H. inversion H as [|x l [_ Hle] _]; subst.
  vm_compute in Hle. now apply Hle.
Qed.

(** * Further properties of the code *)

(** ** Presentation helpers *)

Section PresentationFacts.
Local Open Scope string_scope.

Lemma length_append s t :
  String.length (s ++ t) = (String.length s + String.length t)%nat.
Proof. induction s as [|c s IH]; simpl; [reflexivity | now rewrite IH]. Qed.

Lemma length_take n s : String.length (take n s) = Nat.min n (String.length s).
Proof.
  revert s. induction n as [|n IH]; intros [|c s]; simpl; try reflexivity.
  now rewrite IH.
Qed.

Lemma take_all n s : (String.length s <= n)%nat -> take n s = s.
Proof.
  revert s. induction n as [|n IH]; intros [|c s]; simpl; try reflexivity.
  - lia.
  - intros H. rewrite IH; [reflexivity | lia].
Qed.

Lemma length_replace_char c d s :
  String.length (replace_char c d s) = String.length s.
Proof. induction s as [|a s IH]; simpl; [reflexivity | now rewrite IH]. Qed.

Lemma spaceless_append s t :
  Str.spaceless (s ++ t) = (Str.spaceless s && Str.spaceless t)%bool.
Proof.
  induction s as [|a s IH]; simpl; [reflexivity|].
  now rewrite IH, andb_assoc.
Qed.

Lemma spaceless_replace s : Str.spaceless (replace_char " " "_" s) = true.
Proof.
  induction s as [|a s IH]; simpl; [reflexivity|].
  rewrite IH. now destruct (Ascii.eqb a " ") eqn:E; [|rewrite E].
Qed.

Lemma get_take i n s :
  String.get i (take n s) = if (i <? n)%nat then String.get i s else None.
Proof.
  revert i s. induction n as [|n IH]; intros i s.
  - destruct s; reflexivity.
  - destruct s as [|c s].
    + simpl. now destruct (i <? S n)%nat.
    + destruct i as [|i]; [reflexivity|].
      change (String.get i (take n s)
              = if (i <? n)%nat then String.get i s else None).
      apply IH.
Qed.

Lemma get_replace_char c d i s :
  String.get i (replace_char c d s)
  = option_map (fun a => if Ascii.eqb a c then d else a) (String.get i s).
Proof.
  revert i. induction s as [|a s IH]; intros i; simpl; [reflexivity|].
  destruct i as [|i]; [reflexivity | apply IH].
Qed.

(** X1: the name of the downloaded file is [KeyPaper_], then the first
    fifteen characters of the query (all of it when it is shorter), each
    space turned into an underscore and every other character kept, then
    [.csv]: it has no space in it and at most 28 characters. *)
Theorem csv_file_name_shape (search_query : string) :
  (exists stem,
      csv_file_name search_query = "KeyPaper_" ++ stem ++ ".csv"
      /\ String.length stem = Nat.min 15 (String.length search_query)
      /\ (forall i, (i < 15)%nat ->
            String.get i stem
            = option_map (fun c => if Ascii.eqb c " " then "_"%char else c)
                         (String.get i search_query))
      /\ (forall i, (15 <= i)%nat -> String.get i stem = None)
      /\ Str.spaceless stem = true)
  /\ Str.spaceless (csv_file_name search_query) = true
  /\ (String.length (csv_file_name search_query) <= 28)%nat.
Proof.
  unfold csv_file_name. split; [|split].
  - eexists. split; [reflexivity|]. split; [|split; [|split]].
    + now rewrite length_replace_char, length_take.
    + intros i Hi. rewrite get_replace_char, get_take.
      apply Nat.ltb_lt in Hi. now rewrite Hi.
    + intros i Hi. rewrite get_replace_char, get_take.
      apply Nat.ltb_ge in Hi. now rewrite Hi.
    + apply spaceless_replace.
  - now rewrite !spaceless_append, spaceless_replace.
  - rewrite !length_append, length_replace_char, length_take.
    change (String.length "KeyPaper_") with 9%nat.
    change (String.length ".csv") with 4%nat. lia.
Qed.

(** X3: the author line shown is the stored one when it has at most 150
    characters, and its first 150 characters followed by three dots
    otherwise; the abstract likewise with 600. Neither is ever longer than
    the limit plus three. *)
Theorem shown_text_bounds (text : string) :
  ((String.length text <= 150)%nat -> shown_authors text = text)
  /\ ((150 < String.length text)%nat ->
      shown_authors text = take 150 text ++ "..."
      /\ String.length (shown_authors text) = 153%nat)
  /\ (String.length (shown_authors text) <= 153)%nat
  /\ ((String.length text <= 600)%nat -> shown_abstract text = text)
  /\ ((600 < String.length text)%nat ->
      shown_abstract text = take 600 text ++ "..."
      /\ String.length (shown_abstract text) = 603%nat)
  /\ (String.length (shown_abstract text) <= 603)%nat.
Proof.
  assert (Hnil : forall s, s ++ "" = s)
    by (induction s as [|c s IH]; simpl; [reflexivity | now rewrite IH]).
  assert (Hdots : String.length "..." = 3%nat) by reflexivity.
  unfold shown_authors, shown_abstract.
  destruct (Nat.ltb_spec 150 (String.length text)) as [E1|E1];
    destruct (Nat.ltb_spec 600 (String.length text)) as [E2|E2];
    repeat apply conj; intros;
    rewrite ?Hnil, ?length_append, ?length_take, ?Hdots;
    try lia; try reflexivity; try (split; [reflexivity|]);
    rewrite ?length_append, ?length_take, ?Hdots;
    try lia; try (apply take_all; lia).
Qed.

End PresentationFacts.

(** ** Abstract reconstructor *)

Section StabilityFacts.
Context {A : Type}.
Variable key : A -> Z.

Lemma insert_filter_key k x l :
  List.filter (fun e => key e =? k) (StableSort.insert Z.leb key x l)
  = List.filter (fun e => key e =? k) (x :: l).
Proof.
  induction l as [|y t IH]; [reflexivity|].
  simpl StableSort.insert. destruct (key x <=? key y) eqn:E; [reflexivity|].
  apply Z.leb_gt in E. simpl in *.
  destruct (key y =? k) eqn:Ey; destruct (key x =? k) eqn:Ex;
    try (apply Z.eqb_eq in Ey); try (apply Z.eqb_eq in Ex);
    try lia; rewrite IH; reflexivity.
Qed.

Lemma sort_filter_key k l :
  List.filter (fun e => key e =? k) (StableSort.sort Z.leb key l)
  = List.filter (fun e => key e =? k) l.
Proof.
  induction l as [|x t IH]; [reflexivity|].
  simpl StableSort.sort. rewrite insert_filter_key. simpl. now rewrite IH.
Qed.

End StabilityFacts.

(** X4: the sort of [reconstruct_abstract] is stable: the words that
    claim one and the same position come out in the order in which the
    index lists them. *)
Theorem reconstruct_ties_in_encounter_order (index : InvertedIndex) (pos : Z) :
  List.filter (fun e => fst e =? pos) (sort_by_position (word_positions index))
  = List.filter (fun e => fst e =? pos) (word_positions index).
Proof. apply sort_filter_key. Qed.

Lemma sorted_permutation_unique (l1 l2 : list Z) :
  StronglySorted Z.le l1 -> StronglySorted Z.le l2 -> Permutation l1 l2 ->
  l1 = l2.
Proof.
  intros H1. revert l2. induction H1 as [|a t1 Hs1 IH Ha]; intros l2 H2 Hp.
  - apply Permutation_nil in Hp. now subst.
  - destruct H2 as [|b t2 Hs2 Hb].
    + apply Permutation_sym, Permutation_nil in Hp. discriminate.
    + assert (a = b).
      { rewrite Forall_forall in Ha, Hb.
        assert (In b (a :: t1))
          by (eapply Permutation_in; [apply Permutation_sym, Hp | now left]).
        assert (In a (b :: t2)) by (eapply Permutation_in; [apply Hp | now left]).
        simpl in *.
        assert (a <= b) by (destruct H as [->|H]; [lia | now apply Ha]).
        assert (b <= a) by (destruct H0 as [->|H0]; [lia | now apply Hb]).
        lia. }
      subst b. f_equal. apply IH; [exact Hs2|].
      eapply Permutation_cons_inv; exact Hp.
Qed.

Lemma positions_strongly_sorted n k :
  StronglySorted Z.le (map Z.of_nat (seq k n)).
Proof.
  revert k. induction n as [|n IH]; intros k; simpl; constructor; [apply IH|].
  apply Forall_map, Forall_forall. intros x Hx. apply in_seq in Hx. lia.
Qed.

Lemma StronglySorted_map {A B} (f : A -> B) (R : B -> B -> Prop) l :
  StronglySorted (fun a b => R (f a) (f b)) l -> StronglySorted R (map f l).
Proof.
  induction 1 as [|x t Hs IH Hx]; simpl; constructor; [exact IH|].
  now apply Forall_map.
Qed.

(** When the positions listed are 0, 1, ..., n-1, each once, the sorted
    entries carry them in that order. *)
Lemma sorted_positions entries :
  Permutation (map fst entries) (map Z.of_nat (seq 0 (length entries))) ->
  map fst (sort_by_position entries) = map Z.of_nat (seq 0 (length entries)).
Proof.
  intros Hp. apply sorted_permutation_unique.
  - apply StronglySorted_map, sort_by_position_sorted.
  - apply positions_strongly_sorted.
  - eapply perm_trans; [|exact Hp].
    apply Permutation_map, Permutation_sym, sort_by_position_perm.
Qed.

(** X5: when the index lists every position from 0 to n-1 exactly once,
    the i-th word of the reconstructed text is the word the index lists at
    position i; with words free of spaces the text is those words joined by
    single spaces, so splitting it on spaces finds it there. *)
Theorem reconstruct_places_words (index : InvertedIndex) :
  let entries := word_positions index in
  Permutation (map fst entries) (map Z.of_nat (seq 0 (length entries))) ->
  (forall i word,
      In (Z.of_nat i, word) entries ->
      nth_error (map snd (sort_by_position entries)) i = Some word)
  /\ (entries <> [] ->
      Forall (fun e => Str.spaceless (snd e) = true) entries ->
      forall i word,
        In (Z.of_nat i, word) entries ->
        nth_error (Str.split_spaces (reconstruct_abstract (Some index))) i
        = Some word).
Proof.
  intros entries Hp.
  assert (Hnth : forall i word,
             In (Z.of_nat i, word) entries ->
             nth_error (map snd (sort_by_position entries)) i = Some word).
  { intros i word Hin.
    pose proof (sorted_positions entries Hp) as Hfst.
    assert (Hs : In (Z.of_nat i, word) (sort_by_position entries))
      by (eapply Permutation_in; [apply sort_by_position_perm | exact Hin]).
    apply In_nth_error in Hs as [j Hj].
    assert (Hj' : nth_error (map fst (sort_by_position entries)) j
                  = Some (Z.of_nat i))
      by (rewrite nth_error_map, Hj; reflexivity).
    rewrite Hfst, nth_error_map in Hj'.
    destruct (nth_error (seq 0 (length entries)) j) as [m|] eqn:Hm;
      [|discriminate].
    simpl in Hj'. injection Hj' as Hmi. apply Nat2Z.inj in Hmi. subst m.
    assert (j < length entries)%nat.
    { rewrite <- (length_seq (length entries) 0).
      apply nth_error_Some. congruence. }
    rewrite nth_error_nth' with (d := 0%nat) in Hm
      by (rewrite length_seq; assumption).
    rewrite seq_nth in Hm by assumption. injection Hm as <-.
    simpl. rewrite nth_error_map, Hj. reflexivity. }
  split; [exact Hnth|].
  intros Hne Hwords i word Hin.
  rewrite reconstruct_nonempty by exact Hne.
  rewrite split_join; [now apply Hnth | |].
  - intros Hnil. apply map_eq_nil in Hnil. apply Hne.
    apply Permutation_nil. fold entries. rewrite <- Hnil.
    apply Permutation_sym, sort_by_position_perm.
  - apply Forall_map.
    eapply Permutation_Forall; [apply sort_by_position_perm | exact Hwords].
Qed.

Lemma reconstruct_places_words_witness :
  nth_error
    (Str.split_spaces
       (reconstruct_abstract
          (Some [("is", [1; 3]); ("what", [0; 2]); ("what?", [4])]%string)))
    3
  = Some "is"%string.
Proof.
  refine (proj2 (reconstruct_places_words
                   [("is", [1; 3]); ("what", [0; 2]); ("what?", [4])]%string _)
                _ _ 3%nat "is"%string _).
  - simpl.
    apply (Permutation_trans (l' := [1; 0; 3; 2; 4])).
    + apply perm_skip. apply perm_swap.
    + apply (Permutation_trans (l' := [0; 1; 3; 2; 4])); [apply perm_swap|].
      do 2 apply perm_skip. apply perm_swap.
  - discriminate.
  - simpl. repeat constructor.
  - simpl. auto.
Defined.

(** ** Record normalizer *)

Lemma mapM_raise {A B} (f : A -> result B) l e :
  mapM f l = Raise e <->
  exists pre x post,
    l = pre ++ x :: post
    /\ Forall (fun a => exists b, f a = Ok b) pre
    /\ f x = Raise e.
Proof.
  induction l as [|a t IH]; simpl.
  - split; [discriminate|]. intros [[|p pre] [x [post [H _]]]]; discriminate.
  - destruct (f a) as [b|e'] eqn:Ea; simpl.
    + destruct (mapM f t) as [bs|e''] eqn:Et; simpl.
      * split; [discriminate|].
        intros [[|p pre] [x [post [Hl [Hpre Hx]]]]]; simpl in Hl;
          injection Hl as <- Ht; [congruence|].
        assert (Habs : @Ok (list B) bs = Raise e).
        { apply IH. inversion Hpre; subst. exists pre, x, post. auto. }
        discriminate Habs.
      * split.
        -- intros H. injection H as <-.
           destruct (proj1 IH eq_refl) as [pre [x [post [Hl [Hpre Hx]]]]].
           exists (a :: pre), x, post. subst t. repeat split; auto.
           constructor; eauto.
        -- intros [[|p pre] [x [post [Hl [Hpre Hx]]]]]; simpl in Hl;
             injection Hl as <- Ht; [congruence|].
           apply IH. inversion Hpre; subst. exists pre, x, post. auto.
    + split.
      * intros H. injection H as <-. exists [], a, t. repeat split; auto.
      * intros [[|p pre] [x [post [Hl [Hpre Hx]]]]]; simpl in Hl;
          injection Hl as <- Ht; [congruence|].
        inversion Hpre as [|? ? [b Hb] ?]; subst. congruence.
Qed.

Lemma Forall2_In_left {A B} (R : A -> B -> Prop) l l' a :
  Forall2 R l l' -> In a l -> exists b, In b l' /\ R a b.
Proof.
  induction 1 as [|x y t t' Hxy Ht IH]; simpl; [tauto|].
  intros [->|Hin]; [eauto|]. destruct (IH Hin) as [b [Hb Hab]]. eauto.
Qed.

Lemma Forall2_In_right {A B} (R : A -> B -> Prop) l l' b :
  Forall2 R l l' -> In b l' -> exists a, In a l /\ R a b.
Proof.
  induction 1 as [|x y t t' Hxy Ht IH]; simpl; [tauto|].
  intros [->|Hin]; [eauto|]. destruct (IH Hin) as [a [Ha Hab]]. eauto.
Qed.

Lemma kept_name_raise a e :
  kept_name a = Raise e <-> RawWork.author a = Null /\ e = AttributeError.
Proof.
  unfold kept_name. destruct a as [[| |[[| |name]]]]; simpl;
    try (split; [discriminate | intros [H _]; discriminate]).
  - split; [intros H; injection H as <-; auto | intros [_ ->]; reflexivity].
  - destruct (String.eqb name "");
      (split; [discriminate | intros [H _]; discriminate]).
Qed.

Lemma collect_authors_raise authorships e :
  collect_authors authorships = Raise e <->
  (authorships = Null /\ e = TypeError)
  \/ (exists l, authorships = Val l
                /\ Exists (fun a => RawWork.author a = Null) (firstn 10 l)
                /\ e = AttributeError).
Proof.
  unfold collect_authors. destruct authorships as [| |l]; simpl.
  - split; [discriminate|].
    intros [[H _]|[l [H _]]]; discriminate.
  - split; [intros H; injection H as <-; auto|].
    intros [[_ ->]|[l [H _]]]; [reflexivity | discriminate].
  - change (slice_to l 10) with (firstn 10 l).
    destruct (mapM kept_name (firstn 10 l)) as [names|e'] eqn:E; simpl.
    + split; [discriminate|].
      intros [[H _]|[l' [Hl [Hex _]]]]; [discriminate|].
      injection Hl as <-. apply Exists_exists in Hex as [a [Hin Ha]].
      apply mapM_Forall2 in E.
      destruct (Forall2_In_left _ _ _ _ E Hin) as [n' [_ Hn']].
      unfold kept_name in Hn'. rewrite Ha in Hn'. discriminate.
    + apply mapM_raise in E as [pre [x [post [Hl [_ Hx]]]]].
      apply kept_name_raise in Hx as [Hx ->].
      assert (Hin : In x (firstn 10 l)) by (rewrite Hl; apply in_elt).
      split.
      * intros H. injection H as <-. right. exists l.
        split; [reflexivity|]. split; [|reflexivity].
        apply Exists_exists. exists x. split; [exact Hin | exact Hx].
      * intros [[H _]|[l' [_ [_ ->]]]]; [discriminate | reflexivity].
Qed.

(** X6: normalization fails exactly on unreadable author data, and the
    exception tells which: a [TypeError] when the first work that cannot be
    read has a null [authorships], an [AttributeError] when one of its
    first ten authorships has a null [author]; an authorship after the
    tenth is never looked at. *)
Theorem process_results_failure (works : list RawWork.t) (e : exn) :
  process_results works = Raise e <->
  exists before work after,
    works = before ++ work :: after
    /\ Forall Spec.authors_readable before
    /\ ((RawWork.authorships work = Null /\ e = TypeError)
        \/ (exists l, RawWork.authorships work = Val l
                      /\ Exists (fun a => RawWork.author a = Null) (firstn 10 l)
                      /\ e = AttributeError)).
Proof.
  assert (Hwork : forall w e', process_work w = Raise e' <->
                               collect_authors (RawWork.authorships w) = Raise e').
  { intros w e'. unfold process_work.
    destruct (collect_authors (RawWork.authorships w)); simpl;
      split; congruence. }
  assert (Hok : forall w, (exists row, process_work w = Ok row) <->
                          Spec.authors_readable w).
  { intros w. split.
    - intros [row Hrow]. unfold Spec.authors_readable.
      destruct (RawWork.authorships w) as [| |l] eqn:El.
      + split; [discriminate | intros l' H; discriminate].
      + assert (process_work w = Raise TypeError) as Habs; [|congruence].
        apply Hwork, collect_authors_raise. rewrite El. auto.
      + split; [discriminate|]. intros l' Hl'. injection Hl' as <-.
        apply Forall_forall. intros a Hin Hnull.
        assert (process_work w = Raise AttributeError) as Habs; [|congruence].
        apply Hwork, collect_authors_raise. right. exists l.
        repeat split; auto. apply Exists_exists. eauto.
    - intros Hr. destruct (collect_authors_ok w Hr) as [names Hn].
      unfold process_work. rewrite Hn. simpl. eauto. }
  unfold process_results. rewrite mapM_raise. split.
  - intros [pre [x [post [Hl [Hpre Hx]]]]]. exists pre, x, post.
    split; [exact Hl|]. split.
    + eapply Forall_impl; [|exact Hpre]. intros w. apply Hok.
    + now apply collect_authors_raise, Hwork.
  - intros [pre [x [post [Hl [Hpre Hx]]]]]. exists pre, x, post.
    split; [exact Hl|]. split.
    + eapply Forall_impl; [|exact Hpre]. intros w. apply Hok.
    + now apply Hwork, collect_authors_raise.
Qed.

Lemma kept_name_nonempty a names :
  kept_name a = Ok names ->
  (length names <= 1)%nat
  /\ Forall (fun name => name <> EmptyString
                         /\ exists author,
                              RawWork.author a = Val author
                              /\ RawWork.display_name author = Val name)
            names.
Proof.
  unfold kept_name. destruct a as [[| |[[| |name]]]]; simpl; intros H;
    try discriminate; try (injection H as <-; split; [simpl; lia | constructor]).
  destruct (String.eqb name "") eqn:E; injection H as <-;
    (split; [simpl; lia|]); constructor; [|constructor].
  apply String.eqb_neq in E. split; [exact E|]. eauto.
Qed.

Lemma concat_length_le {A} (ls : list (list A)) :
  Forall (fun l => (length l <= 1)%nat) ls ->
  (length (concat ls) <= length ls)%nat.
Proof.
  induction 1 as [|l t Hl Ht IH]; simpl; [lia|].
  rewrite length_app. lia.
Qed.

(** X7: a row keeps at most ten author names, none of them empty, each
    the display name of one of the first ten authorships of the work; the
    author line is the first five of them joined by "; ". *)
Theorem process_work_authors (work : RawWork.t) (row : Row.t) :
  process_work work = Ok row ->
  (length (Row.author_list row) <= 10)%nat
  /\ Forall (fun name =>
               name <> EmptyString
               /\ exists l a author,
                    RawWork.authorships work = Val l
                    /\ In a (firstn 10 l)
                    /\ RawWork.author a = Val author
                    /\ RawWork.display_name author = Val name)
            (Row.author_list row)
  /\ Row.authors row = Str.join "; " (firstn 5 (Row.author_list row)).
Proof.
  unfold process_work.
  destruct (collect_authors (RawWork.authorships work)) as [names|] eqn:E;
    simpl; [|discriminate].
  intros H. injection H as <-. simpl.
  split; [|split; [|reflexivity]].
  - unfold collect_authors in E.
    destruct (RawWork.authorships work) as [| |l]; simpl in E;
      try discriminate.
    + injection E as <-. simpl. lia.
    + destruct (mapM kept_name (slice_to l 10)) as [ns|] eqn:En; simpl in E;
        [|discriminate].
      injection E as <-. apply mapM_Forall2 in En.
      assert (length ns <= 10)%nat.
      { rewrite <- (Forall2_length En).
        change (slice_to l 10) with (firstn 10 l). rewrite length_firstn. lia. }
      assert (length (concat ns) <= length ns)%nat; [|lia].
      apply concat_length_le. clear -En.
      induction En as [|a n ? ? Ha]; constructor; auto.
      now apply kept_name_nonempty in Ha.
  - unfold collect_authors in E.
    destruct (RawWork.authorships work) as [| |l] eqn:El; simpl in E;
      try discriminate.
    + injection E as <-. constructor.
    + destruct (mapM kept_name (slice_to l 10)) as [ns|] eqn:En; simpl in E;
        [|discriminate].
      injection E as <-. apply mapM_Forall2 in En.
      change (slice_to l 10) with (firstn 10 l) in En.
      apply Forall_forall. intros name Hin.
      apply in_concat in Hin as [n [Hn Hname]].
      destruct (Forall2_In_right _ _ _ _ En Hn) as [a [Ha Hk]].
      apply kept_name_nonempty in Hk as [_ Hk].
      rewrite Forall_forall in Hk.
      destruct (Hk name Hname) as [Hne [author [H1 H2]]].
      split; [exact Hne|]. exists l, a, author. auto.
Qed.

Lemma process_work_authors_witness :
  exists row,
    process_work Examples.work_full = Ok row
    /\ Row.author_list row = ["Ada"; "Bo"]%string
    /\ (length (Row.author_list row) <= 10)%nat.
Proof.
  eexists. split; [reflexivity|]. split; [reflexivity|].
  refine (proj1 (process_work_authors Examples.work_full _ eq_refl)).
Defined.

(** ** Paginated fetcher *)

Lemma last_cons_default {A} (x d : A) l : last (x :: l) d = last l x.
Proof.
  revert x d. induction l as [|y t IH]; intros x d; [reflexivity|].
  change (last (x :: y :: t) d) with (last (y :: t) d).
  now rewrite !IH.
Qed.

Section FetchMoreFacts.

Variable transport : Transport.
Variables (query : string) (year_from year_to : Z).
Variables (search_title search_abstract search_keyword : bool).
Variable max_results : Z.

Let run := fetch_loop transport query year_from year_to
                      search_title search_abstract search_keyword max_results.
Let Pag := Pagination transport query year_from year_to
                      search_title search_abstract search_keyword max_results.
Let request := request_for query year_from year_to
                           search_title search_abstract search_keyword.

(** The total returned is the one of the last reply. *)
Lemma fetch_loop_total fuel : forall all_results cursor total log0 r,
  run fuel all_results cursor total log0 = Some r ->
  exists suffix,
    log r = log0 ++ suffix
    /\ total_count r = last (map (fun e => count_of (snd e)) suffix) total.
Proof.
  induction fuel as [|fuel IH]; intros all_results cursor total log0 r;
    unfold run; simpl;
    destruct (Z.of_nat (length all_results) <? max_results) eqn:Hlt;
    try discriminate;
    try (intros H; injection H as <-; exists []; split;
         [now rewrite app_nil_r | reflexivity]).
  set (params := build_params query (base_filter_of year_from year_to) cursor
                              search_title search_abstract search_keyword).
  set (reply := transport (length log0) params).
  assert (Hone : forall recs t,
             t = count_of reply ->
             exists suffix,
               log {| records := recs; total_count := t;
                      log := log0 ++ [(params, reply)] |} = log0 ++ suffix
               /\ total_count {| records := recs; total_count := t;
                                 log := log0 ++ [(params, reply)] |}
                  = last (map (fun e => count_of (snd e)) suffix) total).
  { intros recs t ->. exists [(params, reply)]. split; reflexivity. }
  destruct (try_page reply) as [[[data m] tc]|] eqn:Htry.
  - assert (Htc : tc = count_of reply) by (unfold count_of; now rewrite Htry).
    destruct (get_or (results data) []) as [[|w ws]|];
      try (intros H; injection H as <-; now apply Hone).
    destruct (get (next_cursor m)) as [c|];
      [destruct (String.eqb c "")|];
      try (intros H; injection H as <-; now apply Hone).
    intros H. apply IH in H as [suffix [Hlog Htot]].
    exists ((params, reply) :: suffix). split.
    + now rewrite Hlog, <- app_assoc.
    + rewrite Htot. simpl map. rewrite last_cons_default. now rewrite Htc.
  - intros H. injection H as <-. apply Hone.
    unfold count_of. now rewrite Htry.
Qed.

Lemma pagination_length acc cursor i log :
  Pag acc cursor i log ->
  Z.of_nat acc + Z.of_nat (length log) <= Z.max (Z.of_nat acc) max_results.
Proof.
  induction 1 as [acc cursor i Hcap | acc cursor i reply Hlt Hr Hf
                 | acc cursor i reply Hlt Hr Hf Hp
                 | acc cursor i reply Hlt Hr Hf Hp Hc
                 | acc cursor i reply next rest Hlt Hr Hf Hp Hc Hrest IH];
    simpl length; try lia.
  assert (1 <= length (page_of reply))%nat
    by (destruct (page_of reply); [congruence | simpl; lia]).
  lia.
Qed.

Lemma pagination_single acc cursor i log :
  Pag acc cursor i log ->
  Z.of_nat acc < max_results ->
  failed (transport i (request cursor)) = false ->
  cursor_of (transport i (request cursor)) = None ->
  log = [(request cursor, transport i (request cursor))].
Proof.
  unfold request.
  destruct 1 as [Hcap | reply Hlt Hr Hf | reply Hlt Hr Hf Hp
                | reply Hlt Hr Hf Hp Hc
                | reply next rest Hlt Hr Hf Hp Hc Hrest];
    intros Hacc Hok Hcur; try contradiction; subst reply;
    try reflexivity; congruence.
Qed.

End FetchMoreFacts.

Lemma build_params_fixed query base_filter title abstract concept c :
  let first := build_params query base_filter "*" title abstract concept in
  let other := build_params query base_filter c title abstract concept in
  search other = search first
  /\ filter other = filter first
  /\ per_page other = 200
  /\ select other = SELECT.
Proof.
  unfold build_params. destruct title, abstract, concept; simpl; auto.
Qed.

(** X8: a search makes at most [max_results] requests, and none at all
    when [max_results] is zero or negative: it then returns the empty list
    and a total of 0 without touching the network. *)
Theorem search_requests_bounded (transport : Transport) (query : string)
  (year_from year_to : Z) (search_title search_abstract search_keyword : bool)
  (max_results : Z) :
  exists r,
    search_openalex transport query year_from year_to
                    search_title search_abstract search_keyword max_results
    = Some r
    /\ Z.of_nat (length (log r)) <= Z.max 0 max_results
    /\ (max_results <= 0 ->
        log r = [] /\ records r = [] /\ total_count r = Some 0).
Proof.
  destruct (search_openalex_run transport query year_from year_to search_title
              search_abstract search_keyword max_results)
    as [r [Hrun [Hpag [_ Hrec]]]].
  exists r. split; [exact Hrun|].
  pose proof (pagination_length _ _ _ _ _ _ _ _ _ _ _ _ Hpag) as Hlen.
  simpl in Hlen. split; [exact Hlen|].
  intros Hmax.
  assert (Hlog : log r = []) by (destruct (log r); [reflexivity | simpl in Hlen; lia]).
  split; [exact Hlog|].
  destruct (fetch_loop_total _ _ _ _ _ _ _ _ _ _ _ _ _ _ Hrun)
    as [suffix [Hs Htot]].
  simpl in Hs. rewrite <- Hs, Hlog in Htot.
  split; [|exact Htot].
  rewrite Hrec by (rewrite Hlog; reflexivity). rewrite Hlog.
  unfold pages_of, slice_to. simpl. now rewrite !firstn_nil, Tauto.if_same.
Qed.


(** X10: when the first reply succeeds and hands on no cursor, the search
    is over after that one request: it returns the records of that page,
    cut to [max_results], and the count of that reply. So a query with
    three matches in all gives three records and a total of 3 in one
    request. *)
Theorem search_single_page (transport : Transport) (query : string)
  (year_from year_to : Z) (search_title search_abstract search_keyword : bool)
  (max_results : Z) :
  let first := request_for query year_from year_to
                           search_title search_abstract search_keyword
                           "*"%string in
  0 < max_results ->
  failed (transport 0%nat first) = false ->
  cursor_of (transport 0%nat first) = None ->
  exists r,
    search_openalex transport query year_from year_to
                    search_title search_abstract search_keyword max_results
    = Some r
    /\ log r = [(first, transport 0%nat first)]
    /\ records r = slice_to (page_of (transport 0%nat first)) max_results
    /\ total_count r = count_of (transport 0%nat first).
Proof.
  intros first Hmax Hok Hcur. subst first.
  destruct (search_openalex_run transport query year_from year_to search_title
              search_abstract search_keyword max_results)
    as [r [Hrun [Hpag [_ Hrec]]]].
  exists r. split; [exact Hrun|].
  pose proof (pagination_single _ _ _ _ _ _ _ _ _ _ _ _ Hpag Hmax Hok Hcur)
    as Hlog.
  split; [exact Hlog|].
  destruct (fetch_loop_total _ _ _ _ _ _ _ _ _ _ _ _ _ _ Hrun)
    as [suffix [Hs Htot]].
  simpl in Hs. rewrite <- Hs, Hlog in Htot. split; [|exact Htot].
  rewrite Hrec by (rewrite Hlog; unfold any_failed; simpl; now rewrite Hok).
  rewrite Hlog. unfold pages_of. simpl. now rewrite app_nil_r.
Qed.

Lemma search_single_page_witness :
  exists r,
    search_openalex Examples.three_matches "team science" 2015 2025
                    true true false 500
    = Some r
    /\ length (log r) = 1%nat
    /\ length (records r) = 3%nat
    /\ total_count r = Some 3.
Proof.
  destruct (search_single_page Examples.three_matches "team science" 2015 2025
                               true true false 500)
    as [r [Hrun [Hlog [Hrec Htot]]]]; try reflexivity.
  exists r. split; [exact Hrun|]. rewrite Hlog, Hrec, Htot.
  repeat split; reflexivity.
Defined.

(** X11: all the requests of one search have the same [search], [filter]
    and [select] parameters and a page size of 200; only the cursor
    changes from one to the next. *)
Theorem search_requests_differ_in_cursor_only (transport : Transport)
  (query : string) (year_from year_to : Z)
  (search_title search_abstract search_keyword : bool) (max_results : Z) :
  let first := request_for query year_from year_to
                           search_title search_abstract search_keyword
                           "*"%string in
  exists r,
    search_openalex transport query year_from year_to
                    search_title search_abstract search_keyword max_results
    = Some r
    /\ Forall (fun e =>
                 search (fst e) = search first
                 /\ filter (fst e) = filter first
                 /\ per_page (fst e) = 200
                 /\ select (fst e) = SELECT)
              (log r).
Proof.
  intros first.
  destruct (search_openalex_run transport query year_from year_to search_title
              search_abstract search_keyword max_results)
    as [r [Hrun [Hpag _]]].
  exists r. split; [exact Hrun|].
  pose proof (pagination_requests _ _ _ _ _ _ _ _ _ _ _ _ Hpag) as Hreq.
  eapply Forall_impl; [|exact Hreq].
  intros e [c Hc]. rewrite Hc.
  apply build_params_fixed.
Qed.

(** X12: cutting to [max_results] only ever shortens the last page: when
    no request failed, the records returned are all the records of the
    pages before the last, followed by as many of the last page as still
    fit; the records of a page are the [results] of its reply. So two pages
    of two records cut to three give the first page and the first record
    of the second. *)
Theorem search_keeps_earlier_pages (transport : Transport) (query : string)
  (year_from year_to : Z) (search_title search_abstract search_keyword : bool)
  (max_results : Z) :
  (exists r,
      search_openalex transport query year_from year_to
                      search_title search_abstract search_keyword max_results
      = Some r
      /\ (any_failed (log r) = false ->
          forall earlier e,
            log r = earlier ++ [e] ->
            Z.of_nat (length (pages_of earlier)) < max_results
            /\ records r
               = pages_of earlier
                 ++ firstn (Z.to_nat max_results - length (pages_of earlier))
                           (page_of (snd e))))
  /\ (forall m page,
        page_of (Json {| meta := Val m; results := Val page |}) = page)
  /\ (forall page,
        page_of (Json {| meta := Missing; results := Val page |}) = page)
  /\ (forall reply, Spec.request_failure reply -> page_of reply = [])
  /\ (forall e1 e2,
        pages_of [e1; e2] = page_of (snd e1) ++ page_of (snd e2))
  /\ option_map records
       (search_openalex Examples.two_pages "team science" 2015 2025
                        true true false 3)
     = Some [Examples.a_work; Examples.work_full; Examples.work_null_title].
Proof.
  split; [|repeat apply conj; try reflexivity].
  - destruct (search_openalex_run transport query year_from year_to
                search_title search_abstract search_keyword max_results)
      as [r [Hrun [Hpag [_ Hrec]]]].
    exists r. split; [exact Hrun|].
    intros Hnone earlier e Hlog.
    assert (Hnth : nth_error (log r) (length earlier) = Some e)
      by (rewrite Hlog, nth_error_app2, Nat.sub_diag by lia; reflexivity).
    destruct (pagination_request _ _ _ _ _ _ _ _ _ _ _ _ Hpag _ _ Hnth)
      as [Hlt _].
    rewrite Hlog, firstn_app, Nat.sub_diag, firstn_all in Hlt.
    simpl in Hlt. rewrite app_nil_r in Hlt. split; [exact Hlt|].
    rewrite (Hrec Hnone), Hlog, pages_of_app. unfold slice_to.
    destruct (0 <=? max_results) eqn:E; [|apply Z.leb_gt in E; lia].
    rewrite firstn_app, firstn_all2 by lia.
    f_equal. unfold pages_of at 2. simpl. now rewrite app_nil_r.
  - intros reply [->|[->|[->|[results ->]]]]; reflexivity.
  - intros e1 e2. unfold pages_of. simpl. now rewrite app_nil_r.
Qed.

(** ** Co-authorship graph *)

Lemma symmetric_add_pair G p :
  Spec.weights_symmetric G -> Spec.weights_symmetric (add_pair G p).
Proof.
  destruct p as [a b]. intros H u v.
  rewrite !weight_add_pair, (is_pair_sym a b v u), (H u v). reflexivity.
Qed.

Lemma symmetric_add_row G l :
  Spec.weights_symmetric G -> Spec.weights_symmetric (add_row G l).
Proof.
  intros H. unfold add_row.
  assert (H' : Spec.weights_symmetric (fold_left Graph.add_node (slice_to l 5) G)).
  { intros u v. rewrite !weight_add_nodes. apply H. }
  destruct (2 <=? length (slice_to l 5))%nat; [|exact H'].
  apply (fold_left_invariant _ (fun _ => True)); auto.
  - intros a b Ha _. now apply symmetric_add_pair.
  - apply Forall_forall. auto.
Qed.

Lemma symmetric_coauthor_graph df : Spec.weights_symmetric (coauthor_graph df).
Proof.
  unfold coauthor_graph.
  apply (fold_left_invariant _ (fun _ => True)).
  - intros a b Ha _. now apply symmetric_add_row.
  - intros u v. reflexivity.
  - apply Forall_forall. auto.
Qed.

(** X13: the graph is undirected: an edge has the same weight read from
    either end, before and after pruning, and pruning changes the weight
    of no edge. *)
Theorem coauthor_weights_symmetric (df : list Row.t) (u v : string) :
  Graph.weight (coauthor_graph df) u v = Graph.weight (coauthor_graph df) v u
  /\ Graph.weight (pruned_graph df) u v = Graph.weight (coauthor_graph df) u v
  /\ Graph.weight (pruned_graph df) u v = Graph.weight (pruned_graph df) v u.
Proof.
  pose proof (well_formed_coauthor_graph df) as Hwf.
  pose proof (symmetric_coauthor_graph df u v) as Hs.
  unfold pruned_graph. rewrite !weight_pruned by exact Hwf. auto.
Qed.

(** *** The weight counts the shared papers *)

Lemma more_more k m w : Spec.more k (Spec.more m w) = Spec.more (m + k) w.
Proof.
  destruct k as [|k]; [now rewrite Nat.add_0_r|].
  destruct m as [|m]; [reflexivity|].
  destruct w as [w|]; simpl; f_equal; lia.
Qed.

Lemma one_more_more w : Some (Spec.one_more w) = Spec.more 1 w.
Proof. now destruct w. Qed.

Lemma weight_fold_pairs u v pairs : forall G,
  Spec.weights_symmetric G ->
  Graph.weight (fold_left add_pair pairs G) u v
  = Spec.more (Spec.matching_pairs u v pairs) (Graph.weight G u v).
Proof.
  induction pairs as [|[a b] ps IH]; intros G Hsym; [reflexivity|].
  change (fold_left add_pair ((a, b) :: ps) G)
    with (fold_left add_pair ps (add_pair G (a, b))).
  rewrite IH by now apply symmetric_add_pair.
  rewrite weight_add_pair. unfold Spec.matching_pairs.
  cbn [List.filter fst snd].
  destruct (Spec.is_pair a b u v) eqn:E; [|reflexivity].
  assert (Hab : Graph.weight G a b = Graph.weight G u v).
  { apply is_pair_true in E as [[-> ->]|[-> ->]]; [reflexivity | apply Hsym]. }
  rewrite Hab, one_more_more, more_more. reflexivity.
Qed.

Lemma matching_none u v pairs :
  (forall a b, In (a, b) pairs -> Spec.is_pair a b u v = false) ->
  Spec.matching_pairs u v pairs = 0%nat.
Proof.
  intros H. unfold Spec.matching_pairs.
  induction pairs as [|[a b] ps IH]; [reflexivity|]. simpl.
  rewrite (H a b) by now left. apply IH. intros x y Hin. apply H. now right.
Qed.

Lemma member_cons v x l :
  Centrality.member v (x :: l) = (String.eqb v x || Centrality.member v l)%bool.
Proof. reflexivity. Qed.

Lemma member_false v l : Centrality.member v l = false <-> ~ In v l.
Proof.
  rewrite <- member_In. destruct (Centrality.member v l).
  - split; [discriminate | intros H; now elim H].
  - split; [discriminate | reflexivity].
Qed.

Lemma once_in_nodup v l :
  NoDup l ->
  length (List.filter (String.eqb v) l)
  = if Centrality.member v l then 1%nat else 0%nat.
Proof.
  induction 1 as [|x t Hx Hnd IH]; [reflexivity|].
  simpl List.filter. rewrite member_cons.
  destruct (String.eqb v x) eqn:E; simpl.
  - apply String.eqb_eq in E. subst x.
    apply member_false in Hx. rewrite Hx in IH. now rewrite IH.
  - exact IH.
Qed.

(** Among the pairs of a list without repetition, the pair of two
    distinct names occurs once if both are in the list, and not at all
    otherwise. *)
Lemma matching_combinations u v l :
  NoDup l -> u <> v ->
  Spec.matching_pairs u v (combinations2 l)
  = if (Centrality.member u l && Centrality.member v l)%bool
    then 1%nat else 0%nat.
Proof.
  intros Hnd Huv.
  assert (Euv : String.eqb u v = false) by now apply String.eqb_neq.
  assert (Evu : String.eqb v u = false) by (apply String.eqb_neq; congruence).
  induction Hnd as [|x t Hx Hnd IH]; [reflexivity|].
  unfold Spec.matching_pairs in *. simpl combinations2.
  rewrite filter_app, length_app, IH. clear IH.
  assert (Hmap : forall f : string -> bool,
             (forall y, Spec.is_pair x y u v = f y) ->
             length (List.filter (fun p => Spec.is_pair (fst p) (snd p) u v)
                                 (map (pair x) t))
             = length (List.filter f t)).
  { intros f Hf. clear -Hf. induction t as [|y t IH]; [reflexivity|].
    simpl. rewrite Hf. destruct (f y); simpl; now rewrite IH. }
  rewrite !member_cons.
  destruct (String.eqb u x) eqn:Eu; [|destruct (String.eqb v x) eqn:Ev].
  - apply String.eqb_eq in Eu. subst x.
    rewrite (Hmap (String.eqb v)), (once_in_nodup v t Hnd).
    + apply member_false in Hx. rewrite Hx, Evu. simpl.
      destruct (Centrality.member v t); reflexivity.
    + intros y. unfold Spec.is_pair.
      rewrite String.eqb_refl, Euv, andb_false_r, orb_false_r.
      simpl. apply String.eqb_sym.
  - apply String.eqb_eq in Ev. subst x.
    rewrite (Hmap (String.eqb u)), (once_in_nodup u t Hnd).
    + apply member_false in Hx. rewrite Hx, andb_false_r. simpl.
      destruct (Centrality.member u t); reflexivity.
    + intros y. unfold Spec.is_pair.
      rewrite String.eqb_refl, Evu, andb_true_r. simpl. apply String.eqb_sym.
  - rewrite (Hmap (fun _ => false)).
    + assert (Hzero : length (List.filter (fun _ : string => false) t) = 0%nat)
        by (clear; induction t; simpl; auto).
      rewrite Hzero. reflexivity.
    + intros y. unfold Spec.is_pair.
      rewrite (String.eqb_sym x u), (String.eqb_sym x v), Eu, Ev.
      now rewrite andb_false_r.
Qed.

Lemma combinations2_short {A} (l : list A) :
  (length l < 2)%nat -> combinations2 l = [].
Proof. destruct l as [|x [|y t]]; simpl; intros H; try reflexivity; lia. Qed.

Lemma symmetric_add_nodes l G :
  Spec.weights_symmetric G -> Spec.weights_symmetric (fold_left Graph.add_node l G).
Proof. intros H u v. rewrite !weight_add_nodes. apply H. Qed.

Lemma weight_add_row_count G l u v :
  Spec.weights_symmetric G ->
  Graph.weight (add_row G l) u v
  = Spec.more (Spec.matching_pairs u v (combinations2 (firstn 5 l)))
              (Graph.weight G u v).
Proof.
  intros Hsym. unfold add_row. change (slice_to l 5) with (firstn 5 l).
  destruct (2 <=? length (firstn 5 l))%nat eqn:E.
  - rewrite weight_fold_pairs by now apply symmetric_add_nodes.
    now rewrite weight_add_nodes.
  - apply Nat.leb_gt in E. rewrite combinations2_short by exact E.
    apply weight_add_nodes.
Qed.

Lemma weight_rows_count u v ls : forall G,
  Spec.weights_symmetric G ->
  Graph.weight (fold_left add_row ls G) u v
  = Spec.more
      (list_sum
         (map (fun l => Spec.matching_pairs u v (combinations2 (firstn 5 l)))
              ls))
      (Graph.weight G u v).
Proof.
  induction ls as [|l ls IH]; intros G Hsym; [reflexivity|].
  simpl fold_left. rewrite IH by now apply symmetric_add_row.
  rewrite weight_add_row_count by exact Hsym.
  now rewrite more_more.
Qed.

(** X14: the weight of an edge is the number of shared papers: when no
    row lists a name twice among its first five authors, two distinct
    authors are joined by an edge exactly when some row lists both among
    its first five, and the weight of the edge is the number of such
    rows. *)
Theorem weight_counts_shared_papers (df : list Row.t) (u v : string) :
  Forall Spec.distinct_authors df -> u <> v ->
  Graph.weight (coauthor_graph df) u v
  = match Spec.shared_papers u v df with
    | O => None
    | S k => Some (Z.of_nat (S k))
    end.
Proof.
  intros Hdistinct Huv. unfold coauthor_graph.
  rewrite weight_rows_count by (intros a b; reflexivity).
  assert (Hsum : list_sum
                   (map (fun l => Spec.matching_pairs u v
                                    (combinations2 (firstn 5 l)))
                        (map Row.author_list df))
                 = Spec.shared_papers u v df).
  { unfold Spec.shared_papers.
    set (f := fun l => Spec.matching_pairs u v (combinations2 (firstn 5 l))).
    induction Hdistinct as [|row rows Hrow Hrows IH]; [reflexivity|].
    change (list_sum (map f (map Row.author_list (row :: rows))))
      with (f (Row.author_list row)
            + list_sum (map f (map Row.author_list rows)))%nat.
    rewrite IH. unfold f. rewrite (matching_combinations u v _ Hrow Huv).
    cbn [List.filter].
    destruct (Centrality.member u (firstn 5 (Row.author_list row))
              && Centrality.member v (firstn 5 (Row.author_list row)))%bool;
      reflexivity. }
  rewrite Hsum. now destruct (Spec.shared_papers u v df).
Qed.

Lemma weight_counts_shared_papers_witness :
  Graph.weight
    (coauthor_graph
       [Examples.row_of ["A"; "B"; "C"]; Examples.row_of ["A"; "B"; "C"];
        Examples.row_of ["D"]; Examples.row_of ["C"; "E"]]%string)
    "A" "B"
  = Some 2.
Proof.
  refine (weight_counts_shared_papers
            [Examples.row_of ["A"; "B"; "C"]; Examples.row_of ["A"; "B"; "C"];
             Examples.row_of ["D"]; Examples.row_of ["C"; "E"]]%string
            "A" "B" _ _).
  - repeat constructor; simpl; intuition discriminate.
  - discriminate.
Defined.

(** *** The nodes *)

Lemma nodes_add_pair_iff G a b x :
  In x (Graph.nodes (add_pair G (a, b))) <->
  x = a \/ x = b \/ In x (Graph.nodes G).
Proof.
  unfold add_pair, Graph.add_edge.
  destruct (Graph.weight G a b);
    rewrite !nodes_set_adj_In, ?nodes_add_node_In; intuition auto.
Qed.

Lemma nodes_add_nodes_In l x : forall G,
  In x (Graph.nodes (fold_left Graph.add_node l G)) <->
  In x l \/ In x (Graph.nodes G).
Proof.
  induction l as [|n t IH]; intros G; simpl; [tauto|].
  rewrite IH, nodes_add_node_In. intuition auto.
Qed.

Lemma nodes_fold_pairs_In ps x : forall G,
  Forall (fun p => In (fst p) (Graph.nodes G) /\ In (snd p) (Graph.nodes G)) ps ->
  (In x (Graph.nodes (fold_left add_pair ps G)) <-> In x (Graph.nodes G)).
Proof.
  induction ps as [|[a b] ps IH]; intros G Hall; [reflexivity|].
  inversion Hall as [|? ? [Ha Hb] Hrest]; subst. simpl in Ha, Hb.
  change (fold_left add_pair ((a, b) :: ps) G)
    with (fold_left add_pair ps (add_pair G (a, b))).
  rewrite IH.
  - rewrite nodes_add_pair_iff. split; [|tauto].
    intros [->|[->|H]]; assumption.
  - eapply Forall_impl; [|exact Hrest].
    intros p [H1 H2]. rewrite !nodes_add_pair_iff. tauto.
Qed.

Lemma nodes_add_row_In G l x :
  In x (Graph.nodes (add_row G l)) <->
  In x (firstn 5 l) \/ In x (Graph.nodes G).
Proof.
  unfold add_row. change (slice_to l 5) with (firstn 5 l).
  destruct (2 <=? length (firstn 5 l))%nat; [|apply nodes_add_nodes_In].
  rewrite nodes_fold_pairs_In; [apply nodes_add_nodes_In|].
  apply Forall_forall. intros [a b] Hin.
  apply combinations2_In in Hin as [Ha Hb]. simpl.
  rewrite !nodes_add_nodes_In. auto.
Qed.

Lemma nodes_rows_In ls x : forall G,
  In x (Graph.nodes (fold_left add_row ls G)) <->
  (exists l, In l ls /\ In x (firstn 5 l)) \/ In x (Graph.nodes G).
Proof.
  induction ls as [|l ls IH]; intros G; simpl.
  - split; [auto | intros [[l [[] _]]|H]; exact H].
  - rewrite IH, nodes_add_row_In. split.
    + intros [[l' [H1 H2]]|[H|H]]; eauto.
    + intros [[l' [[->|H1] H2]]|H]; eauto.
Qed.

Lemma adj_nonempty_edge G u :
  Graph.adj G u <> [] <-> exists v, Graph.has_edge G u v = true.
Proof.
  unfold Graph.has_edge, ODict.mem. split.
  - destruct (Graph.adj G u) as [|[v w] t]; [congruence|].
    intros _. exists v. simpl. now rewrite String.eqb_refl.
  - intros [v H] Hnil. rewrite Hnil in H. discriminate.
Qed.

Lemma coauthor_nodes_In df u :
  In u (Graph.nodes (coauthor_graph df)) <->
  exists row, In row df /\ In u (firstn 5 (Row.author_list row)).
Proof.
  unfold coauthor_graph. rewrite nodes_rows_In. split.
  - intros [[l [Hl Hu]]|[]]. apply in_map_iff in Hl as [row [<- Hrow]]. eauto.
  - intros [row [Hrow Hu]]. left. exists (Row.author_list row).
    split; [now apply in_map | exact Hu].
Qed.

Lemma pruned_nodes_In df u :
  In u (Graph.nodes (pruned_graph df)) <->
  exists v, Graph.has_edge (coauthor_graph df) u v = true.
Proof.
  unfold pruned_graph.
  rewrite nodes_pruned_In by apply well_formed_coauthor_graph.
  rewrite adj_nonempty_edge. split; [tauto|].
  intros H. split; [|exact H].
  apply has_node_In. destruct (Graph.has_node (coauthor_graph df) u) eqn:E;
    [reflexivity|].
  apply adj_absent in E. apply adj_nonempty_edge in H. contradiction.
Qed.

(** X15: the nodes of the graph are the names among the first five
    authors of some row; the nodes left after pruning are those with at
    least one co-author. *)
Theorem graph_nodes (df : list Row.t) (u : string) :
  (In u (Graph.nodes (coauthor_graph df)) <->
   exists row, In row df /\ In u (firstn 5 (Row.author_list row)))
  /\ (In u (Graph.nodes (pruned_graph df)) <->
      exists v, Graph.has_edge (coauthor_graph df) u v = true).
Proof. split; [apply coauthor_nodes_In | apply pruned_nodes_In]. Qed.

(** *** The rankings *)

Lemma NoDup_firstn {A} n (l : list A) : NoDup l -> NoDup (firstn n l).
Proof.
  intros H. revert n. induction H as [|x t Hx Hnd IH]; intros [|n]; simpl;
    constructor; auto.
  intros Hin. apply Hx. eapply In_firstn; eauto.
Qed.

Lemma top5_names items :
  NoDup (map fst items) ->
  NoDup (map fst (slice_to (Centrality.sorted_desc items) 5))
  /\ incl (map fst (slice_to (Centrality.sorted_desc items) 5)) (map fst items)
  /\ length (slice_to (Centrality.sorted_desc items) 5)
     = Nat.min 5 (length items).
Proof.
  intros Hnd.
  change (slice_to (Centrality.sorted_desc items) 5)
    with (firstn 5 (Centrality.sorted_desc items)).
  pose proof (sorted_desc_perm items) as Hp.
  split; [|split].
  - rewrite <- firstn_map. apply NoDup_firstn.
    eapply Permutation_NoDup; [apply Permutation_map; exact Hp | exact Hnd].
  - intros x Hx. rewrite <- firstn_map in Hx. apply In_firstn in Hx.
    eapply Permutation_in; [apply Permutation_map, Permutation_sym; exact Hp|].
    exact Hx.
  - rewrite length_firstn. now rewrite <- (Permutation_length Hp).
Qed.

(** X16: each ranking names every author at most once, names only
    authors of the pruned graph, and, when that graph has n >= 2 nodes, has
    min(5, n) entries; an author who never shares a paper is in neither
    ranking. *)
Theorem rankings_name_coauthors (df : list Row.t) :
  let G := pruned_graph df in
  let top := calculate_author_centrality df in
  NoDup (map fst (fst top)) /\ NoDup (map fst (snd top))
  /\ incl (map fst (fst top)) (Graph.nodes G)
  /\ incl (map fst (snd top)) (Graph.nodes G)
  /\ ((2 <= length (Graph.nodes G))%nat ->
      length (fst top) = Nat.min 5 (length (Graph.nodes G))
      /\ length (snd top) = Nat.min 5 (length (Graph.nodes G)))
  /\ (forall u,
        (forall v, Graph.has_edge (coauthor_graph df) u v = false) ->
        ~ In u (map fst (fst top)) /\ ~ In u (map fst (snd top))).
Proof.
  intros G top.
  assert (HwfG : Spec.well_formed G)
    by (apply well_formed_pruned, well_formed_coauthor_graph).
  assert (Hdeg : map fst (Centrality.degree_centrality G) = Graph.nodes G).
  { unfold Centrality.degree_centrality.
    destruct (Z.of_nat (length (Graph.nodes G)) <=? 1);
      rewrite map_map; simpl; apply map_id. }
  assert (Hbet : map fst (Centrality.betweenness_centrality G) = Graph.nodes G).
  { unfold Centrality.betweenness_centrality.
    rewrite map_map. simpl. apply map_id. }
  assert (Hmain :
            NoDup (map fst (fst top)) /\ NoDup (map fst (snd top))
            /\ incl (map fst (fst top)) (Graph.nodes G)
            /\ incl (map fst (snd top)) (Graph.nodes G)
            /\ ((2 <= length (Graph.nodes G))%nat ->
                length (fst top) = Nat.min 5 (length (Graph.nodes G))
                /\ length (snd top) = Nat.min 5 (length (Graph.nodes G)))).
  { subst top. unfold calculate_author_centrality. fold G.
    destruct (length (Graph.nodes G) <? 2)%nat eqn:E.
    - apply Nat.ltb_lt in E. simpl.
      repeat apply conj; try constructor; try (intros x []); intros; lia.
    - simpl fst. simpl snd.
      destruct (top5_names (Centrality.degree_centrality G)) as [D1 [D2 D3]];
        [rewrite Hdeg; apply HwfG|].
      destruct (top5_names (Centrality.betweenness_centrality G))
        as [B1 [B2 B3]]; [rewrite Hbet; apply HwfG|].
      rewrite Hdeg in D2. rewrite Hbet in B2.
      pose proof (f_equal (@length _) Hdeg) as Hdlen.
      pose proof (f_equal (@length _) Hbet) as Hblen.
      rewrite length_map in Hdlen, Hblen.
      rewrite Hdlen in D3. rewrite Hblen in B3.
      repeat apply conj; auto. }
  destruct Hmain as [H1 [H2 [H3 [H4 H5]]]].
  repeat apply conj; auto.
  intros u Hu. split; intros Hin; [apply H3 in Hin | apply H4 in Hin];
    apply pruned_nodes_In in Hin as [v Hv];
    rewrite Hu in Hv; discriminate.
Qed.

(** X17: a table in which no row has two authors among its first five
    -- the empty table too -- gives no edge, so nothing is left after
    pruning and both rankings are empty. *)
Theorem no_coauthors_no_ranking (df : list Row.t) :
  Forall (fun row => (length (firstn 5 (Row.author_list row)) <= 1)%nat) df ->
  (forall u v, Graph.weight (coauthor_graph df) u v = None)
  /\ Graph.nodes (pruned_graph df) = []
  /\ calculate_author_centrality df = ([], []).
Proof.
  intros Hshort.
  assert (Hnone : forall u v, Graph.weight (coauthor_graph df) u v = None).
  { intros u v. unfold coauthor_graph.
    rewrite weight_rows_count by (intros a b; reflexivity).
    assert (Hsum : list_sum
                     (map (fun l => Spec.matching_pairs u v
                                      (combinations2 (firstn 5 l)))
                          (map Row.author_list df)) = 0%nat).
    { induction Hshort as [|row rows Hrow Hrows IH]; [reflexivity|].
      cbn [map list_sum fold_right].
      rewrite combinations2_short by lia. exact IH. }
    now rewrite Hsum. }
  assert (Hnodes : Graph.nodes (pruned_graph df) = []).
  { destruct (Graph.nodes (pruned_graph df)) as [|u t] eqn:E; [reflexivity|].
    assert (Hin : In u (Graph.nodes (pruned_graph df)))
      by (rewrite E; now left).
    apply pruned_nodes_In in Hin as [v Hv].
    rewrite has_edge_weight, Hnone in Hv. discriminate. }
  split; [exact Hnone|]. split; [exact Hnodes|].
  unfold calculate_author_centrality. now rewrite Hnodes.
Qed.

Lemma no_coauthors_no_ranking_witness :
  calculate_author_centrality
    [Examples.row_of ["D"]; Examples.row_of []; Examples.row_of ["E"]]%string
  = ([], []).
Proof.
  refine (proj2 (proj2 (no_coauthors_no_ranking
                          [Examples.row_of ["D"]; Examples.row_of [];
                           Examples.row_of ["E"]]%string _))).
  repeat constructor.
Defined.

(** ** The pipeline *)

Lemma mapM_length {A B} (f : A -> result B) l bs :
  mapM f l = Ok bs -> length bs = length l.
Proof.
  intros H. apply mapM_Forall2 in H. symmetry. eapply Forall2_length; eauto.
Qed.

(** X18: whatever the network does, the table built from the records of
    a search has at most [max_results] rows (none when [max_results] is
    negative), one for each record returned. *)
Theorem table_rows_bounded (transport : Transport) (query : string)
  (year_from year_to : Z) (search_title search_abstract search_keyword : bool)
  (max_results : Z) :
  exists r,
    search_openalex transport query year_from year_to
                    search_title search_abstract search_keyword max_results
    = Some r
    /\ Z.of_nat (length (records r)) <= Z.max 0 max_results
    /\ forall rows,
         process_results (records r) = Ok rows ->
         length rows = length (records r)
         /\ Z.of_nat (length rows) <= Z.max 0 max_results.
Proof.
  destruct (search_openalex_run transport query year_from year_to search_title
              search_abstract search_keyword max_results)
    as [r [Hrun [Hpag [Hfail Hrec]]]].
  exists r. split; [exact Hrun|].
  assert (Hlen : Z.of_nat (length (records r)) <= Z.max 0 max_results).
  { destruct (any_failed (log r)) eqn:E.
    - destruct (Hfail eq_refl) as [-> _]. simpl. lia.
    - rewrite (Hrec eq_refl).
      destruct (Z.le_gt_cases 0 max_results) as [Hpos|Hneg].
      + pose proof (slice_to_length (pages_of (log r)) max_results Hpos). lia.
      + pose proof (pagination_length _ _ _ _ _ _ _ _ _ _ _ _ Hpag) as Hl.
        simpl in Hl.
        assert (Hnil : log r = [])
          by (destruct (log r); [reflexivity | simpl in Hl; lia]).
        rewrite Hnil. unfold pages_of, slice_to. simpl.
        rewrite !firstn_nil, Tauto.if_same. simpl. lia. }
  split; [exact Hlen|].
  intros rows Hrows. apply mapM_length in Hrows. split; [exact Hrows | lia].
Qed.

Lemma lower_append s t :
  Str.lower (s ++ t)%string = (Str.lower s ++ Str.lower t)%string.
Proof. induction s as [|c s IH]; simpl; [reflexivity | now rewrite IH]. Qed.

Lemma append_assoc (s t u : string) :
  ((s ++ t) ++ u = s ++ (t ++ u))%string.
Proof. induction s as [|c s IH]; simpl; [reflexivity | now rewrite IH]. Qed.

Lemma contains_around needle before hay after :
  Str.contains needle hay = true ->
  Str.contains needle (before ++ hay ++ after)%string = true.
Proof.
  rewrite !contains_substring. intros [pre [post ->]].
  exists (before ++ pre)%string, (post ++ after)%string.
  now rewrite !append_assoc.
Qed.

(** X19: the Review rule has the first word: a title that is classified
    Review stays one whatever text is put before or after it, in whatever
    case. *)
Theorem review_is_absorbing (before title after : string) :
  paper_type_of (title_lower_of (Val title)) = Review ->
  paper_type_of (title_lower_of (Val (before ++ title ++ after)%string))
  = Review.
Proof.
  rewrite !title_lower_of_val, !lower_append. unfold paper_type_of.
  set (t := Str.lower title). set (b := Str.lower before).
  set (a := Str.lower after).
  destruct (Str.contains "review" t || Str.contains "overview" t
            || Str.contains "state-of-the-art" t)%bool eqn:E.
  - intros _.
    apply orb_true_iff in E as [E|E]; [apply orb_true_iff in E as [E|E]|];
      apply (contains_around _ b _ a) in E; rewrite E;
      rewrite ?orb_true_r; reflexivity.
  - destruct (Str.contains "framework" t || Str.contains "model" t
              || Str.contains "theory" t)%bool; [discriminate|].
    destruct (Str.contains "assess" t || Str.contains "evaluat" t
              || Str.contains "measur" t
              || Str.contains "effectiveness" t)%bool; discriminate.
Qed.

Lemma review_is_absorbing_witness :
  paper_type_of
    (title_lower_of
       (Val ("A Model-Based " ++ "Systematic REVIEW" ++ " and Framework")%string))
  = Review.
Proof.
  apply (review_is_absorbing "A Model-Based " "Systematic REVIEW"
                             " and Framework").
  reflexivity.
Defined.
